(** * verilog_docgen: extraction of modules, ports and instances from Verilog text

    A shallow embedding of [src/verilog_docgen.py].  Python [str] values are
    lists of 8-bit characters (code points 0..255, with the character classes
    Python gives to that range); [None] is [option]'s [None]; the patterns of
    the program are values of a small regular-expression syntax whose matcher
    follows the backtracking order of Python's [re] module; exceptions are an
    explicit error type; the lists of lines that the renderers build by
    [append] are objects of a store.  The command line and the reading of
    the input file are outside the model: [main] starts from the text that
    was read, and the two file operations it calls are parameters. *)

From Stdlib Require Import String DecimalString.
From Stdlib Require DecimalNat Finite ZArith.
From Stdlib Require Import List Ascii Bool Arith Lia.
Import ListNotations.

Set Implicit Arguments.

(** ** Text *)

Definition str := list ascii.

Definition lit (x : String.string) : str := String.list_ascii_of_string x.

Arguments lit x%_string.

Definition code (c : ascii) : nat := nat_of_ascii c.

Definition in_range (lo hi : nat) (c : ascii) : bool :=
  (lo <=? code c) && (code c <=? hi).

(** [str.isspace] on one character, which is also [\s] of [re]. *)
Definition is_space (c : ascii) : bool :=
  in_range 9 13 c || in_range 28 32 c || (code c =? 133) || (code c =? 160).

(** [\w] of [re]: [str.isalnum] or an underscore. *)
Definition is_word (c : ascii) : bool :=
  in_range 48 57 c || in_range 65 90 c || (code c =? 95) || in_range 97 122 c
  || (code c =? 170) || in_range 178 179 c || (code c =? 181)
  || in_range 185 186 c || in_range 188 190 c
  || in_range 192 214 c || in_range 216 246 c || in_range 248 255 c.

Definition nl : ascii := ascii_of_nat 10.

Definition is_nl (c : ascii) : bool := Ascii.eqb c nl.

Definition is_char (a : ascii) (c : ascii) : bool := Ascii.eqb c a.

Definition any_char (c : ascii) : bool := true.

Definition not_of (p : ascii -> bool) (c : ascii) : bool := negb (p c).

Fixpoint str_eqb (a b : str) : bool :=
  match a, b with
  | [], [] => true
  | x :: a', y :: b' => Ascii.eqb x y && str_eqb a' b'
  | _, _ => false
  end.

(** [a.startswith(b)] read the other way round: [b] is a prefix of [t]. *)
Fixpoint starts_with (b t : str) : bool :=
  match b, t with
  | [], _ => true
  | x :: b', y :: t' => is_char x y && starts_with b' t'
  | _ :: _, [] => false
  end.

Fixpoint drop_while (p : ascii -> bool) (t : str) : str :=
  match t with
  | [] => []
  | c :: tl => if p c then drop_while p tl else t
  end.

(** [t.strip(chars)] with the character set given as a predicate. *)
Definition strip_by (p : ascii -> bool) (t : str) : str :=
  rev (drop_while p (rev (drop_while p t))).

(** [t.strip()] *)
Definition strip (t : str) : str := strip_by is_space t.

(** [t.split(sep)] for a separator of one character. *)
Fixpoint split_on (sep : ascii) (t : str) : list str :=
  match t with
  | [] => [[]]
  | c :: tl =>
      if Ascii.eqb c sep then [] :: split_on sep tl
      else match split_on sep tl with
           | h :: r => (c :: h) :: r
           | [] => [[c]]
           end
  end.

(** [t.split()]: the maximal runs of characters that are not white space. *)
Fixpoint split_ws_from (cur : str) (t : str) : list str :=
  match t with
  | [] => match cur with [] => [] | _ => [rev cur] end
  | c :: tl =>
      if is_space c
      then match cur with
           | [] => split_ws_from [] tl
           | _ => rev cur :: split_ws_from [] tl
           end
      else split_ws_from (c :: cur) tl
  end.

Definition split_ws (t : str) : list str := split_ws_from [] t.

(** [t.replace(old, new)]: the occurrences of [old] are found from the left
    and do not overlap; [skip] counts the characters of the occurrence that
    is being stepped over.  An empty [old] puts [new] around every
    character, as Python does. *)
Fixpoint replace_from (old new : str) (t : str) (skip : nat) : str :=
  match t with
  | [] => []
  | c :: tl =>
      match skip with
      | S n => replace_from old new tl n
      | O =>
          if starts_with old t
          then new ++ replace_from old new tl (pred (length old))
          else c :: replace_from old new tl 0
      end
  end.

Definition replace (old new t : str) : str :=
  match old with
  | [] => new ++ flat_map (fun c => c :: new) t
  | _ => replace_from old new t 0
  end.

(** [sep.join(parts)] *)
Fixpoint join (sep : str) (parts : list str) : str :=
  match parts with
  | [] => []
  | [p] => p
  | p :: ps => p ++ sep ++ join sep ps
  end.

(** [c in t] *)
Definition contains_char (c : ascii) (t : str) : bool := existsb (is_char c) t.

(** [x in names] for a collection of strings. *)
Definition str_in (x : str) (names : list str) : bool := existsb (str_eqb x) names.

Definition nonempty {A : Type} (l : list A) : bool :=
  match l with [] => false | _ => true end.

(** ** Regular expressions

    The constructs that the patterns of the program use.  Repetition ([*],
    [+], and their lazy forms) is applied to character classes only, as in
    every pattern of the source; [Opt] is the greedy [?]. *)

Inductive regex : Type :=
| Eps : regex
| Chr : (ascii -> bool) -> regex
| Seq : regex -> regex -> regex
| Alt : regex -> regex -> regex
| Opt : regex -> regex
| Star : bool -> (ascii -> bool) -> regex
| Grp : nat -> regex -> regex
| WordB : regex
| Eol : regex.

(** The position of a match attempt: the character before it (for [\b]),
    the text from it on, and the groups captured so far. *)
Record cursor : Type := Cursor {
  prev : option ascii;
  rest : str;
  caps : list (option str)
}.

Fixpoint set_cap (i : nat) (v : str) (l : list (option str)) : list (option str) :=
  match i, l with
  | O, [] => [Some v]
  | O, _ :: tl => Some v :: tl
  | S j, [] => None :: set_cap j v []
  | S j, x :: tl => x :: set_cap j v tl
  end.

Definition get_cap (i : nat) (l : list (option str)) : option str := nth i l None.

(** The text between two cursors of the same attempt. *)
Definition consumed (s s1 : cursor) : str :=
  firstn (length (rest s) - length (rest s1)) (rest s).

Definition word_opt (o : option ascii) : bool :=
  match o with Some c => is_word c | None => false end.

(** [\b]: exactly one side is a word character. *)
Definition at_boundary (s : cursor) : bool :=
  xorb (word_opt (prev s)) (word_opt (hd_error (rest s))).

Section Repetition.
Variable R : Type.
Variable p : ascii -> bool.
Variable k : option ascii -> str -> option R.

(** [c*?]: the continuation is tried first, one more character after it
    has failed. *)
Fixpoint star_lazy (pv : option ascii) (t : str) : option R :=
  match k pv t with
  | Some r => Some r
  | None =>
      match t with
      | c :: tl => if p c then star_lazy (Some c) tl else None
      | [] => None
      end
  end.

(** [c*]: as many characters as possible first, one less after the
    continuation has failed. *)
Fixpoint star_greedy (pv : option ascii) (t : str) : option R :=
  match t with
  | c :: tl =>
      if p c
      then match star_greedy (Some c) tl with
           | Some r => Some r
           | None => k pv t
           end
      else k pv t
  | [] => k pv t
  end.
End Repetition.

(** The backtracking matcher, in continuation-passing style: [rmatch r s k]
    is the first way, in the order of priority of [re], of matching [r] at
    [s] so that [k] accepts what follows. *)
Fixpoint rmatch (r : regex) (s : cursor) (k : cursor -> option cursor)
  : option cursor :=
  match r with
  | Eps => k s
  | Chr p =>
      match rest s with
      | c :: tl => if p c then k (Cursor (Some c) tl (caps s)) else None
      | [] => None
      end
  | Seq a b => rmatch a s (fun s1 => rmatch b s1 k)
  | Alt a b =>
      match rmatch a s k with
      | Some x => Some x
      | None => rmatch b s k
      end
  | Opt a =>
      match rmatch a s k with
      | Some x => Some x
      | None => k s
      end
  | Star g p =>
      let k1 := fun pv t => k (Cursor pv t (caps s)) in
      if g then star_greedy p k1 (prev s) (rest s)
      else star_lazy p k1 (prev s) (rest s)
  | Grp i a =>
      rmatch a s
        (fun s1 => k (Cursor (prev s1) (rest s1) (set_cap i (consumed s s1) (caps s1))))
  | WordB => if at_boundary s then k s else None
  | Eol =>
      match rest s with
      | [] => k s
      | c :: _ => if is_nl c then k s else None
      end
  end.

Fixpoint Lits (t : str) : regex :=
  match t with
  | [] => Eps
  | c :: tl => Seq (Chr (is_char c)) (Lits tl)
  end.

Definition Word (x : String.string) : regex := Lits (lit x).

Arguments Word x%_string.

(** [c+] and [c+?] *)
Definition Plus (g : bool) (p : ascii -> bool) : regex := Seq (Chr p) (Star g p).

(** A match object: where the match starts and ends, and its groups;
    group 0 is the whole match. *)
Record mobj : Type := Mobj {
  m_start : nat;
  m_end : nat;
  m_groups : list (option str)
}.

Definition group (m : mobj) (i : nat) : option str := get_cap i (m_groups m).

(** One attempt at one position: the length of the match and its groups. *)
Definition match_at (r : regex) (pv : option ascii) (t : str)
  : option (nat * list (option str)) :=
  match rmatch (Grp 0 r) (Cursor pv t []) (fun s => Some s) with
  | Some s1 => Some (length t - length (rest s1), caps s1)
  | None => None
  end.

Section Scanning.
Variable G : Type.
Variable f : option ascii -> str -> option (nat * G).

(** The scan of [finditer]: the leftmost match, then the next one from
    its end on.  [skip] counts the characters of the current match still
    to step over.  After an empty match the scan moves one character on; no
    pattern of the program has an empty match ([patterns_take_characters]
    below). *)
Fixpoint scan (pv : option ascii) (pos : nat) (t : str) (skip : nat)
  : list (nat * nat * G) :=
  match skip with
  | S n =>
      match t with
      | [] => []
      | c :: tl => scan (Some c) (S pos) tl n
      end
  | O =>
      match f pv t with
      | Some (len, g) =>
          (pos, pos + len, g) ::
          match t with
          | [] => []
          | c :: tl => scan (Some c) (S pos) tl (pred len)
          end
      | None =>
          match t with
          | [] => []
          | c :: tl => scan (Some c) (S pos) tl 0
          end
      end
  end.

(** The scan of [re.sub] with a literal replacement: the text outside the
    matches is kept, each match becomes [repl]. *)
Fixpoint sub_scan (repl : str) (pv : option ascii) (t : str) (skip : nat) : str :=
  match skip with
  | S n =>
      match t with
      | [] => []
      | c :: tl => sub_scan repl (Some c) tl n
      end
  | O =>
      match f pv t with
      | Some (len, _) =>
          repl ++
          match t with
          | [] => []
          | c :: tl =>
              match len with
              | O => c :: sub_scan repl (Some c) tl 0
              | S n => sub_scan repl (Some c) tl n
              end
          end
      | None =>
          match t with
          | [] => []
          | c :: tl => c :: sub_scan repl (Some c) tl 0
          end
      end
  end.
End Scanning.

(** [pattern.finditer(t)] *)
Definition finditer (r : regex) (t : str) : list mobj :=
  map (fun x => Mobj (fst (fst x)) (snd (fst x)) (snd x)) (scan (match_at r) None 0 t 0).

(** [re.sub(pattern, repl, t)] *)
Definition re_sub (r : regex) (repl : str) (t : str) : str :=
  sub_scan (match_at r) repl None t 0.

(** ** The program *)

(** [r"//.*?$"] with [re.MULTILINE] *)
Definition line_comment : regex :=
  Seq (Word "//") (Seq (Star false (not_of is_nl)) Eol).

(** [r"/\*.*?\*/"] with [re.DOTALL] *)
Definition block_comment : regex :=
  Seq (Word "/*") (Seq (Star false any_char) (Word "*/")).

Definition strip_comments (text : str) : str :=
  let text := re_sub line_comment [] text in
  re_sub block_comment [] text.

(** *** Exceptions *)

Inductive exn : Type :=
| AttributeError : exn
| TypeError : exn
| IndexError : exn
| ValueError : str -> exn
| OSError : exn.

Definition res (A : Type) : Type := (exn + A)%type.

Definition ret {A : Type} (x : A) : res A := inr x.

Definition raise {A : Type} (e : exn) : res A := inl e.

Definition bind {A B : Type} (c : res A) (k : A -> res B) : res B :=
  match c with
  | inl e => inl e
  | inr x => k x
  end.

Notation "x <- c ;; k" := (bind c (fun x => k))
  (at level 61, c at next level, right associativity).

(** A [for] loop whose body updates the variables [acc] and may raise. *)
Fixpoint for_each {A S : Type} (l : list A) (body : S -> A -> res S) (acc : S) : res S :=
  match l with
  | [] => ret acc
  | x :: tl => acc1 <- body acc x ;; for_each tl body acc1
  end.

(** A value that the code passes on as a [str] (a pattern's subject, a
    field that the data model declares [str]): [None] there is reported as
    a type error.  The groups concerned are set in every match
    ([finditer_groups] below), so the error is never raised. *)
Definition expect_str (o : option str) : res str :=
  match o with
  | Some t => ret t
  | None => raise TypeError
  end.

(** [o.split(...)], [o.strip()] and the like on a value that may be [None]. *)
Definition method_of (o : option str) : res str :=
  match o with
  | Some t => ret t
  | None => raise AttributeError
  end.

(** [l[-1]] *)
Definition index_last {A : Type} (l : list A) : res A :=
  match rev l with
  | x :: _ => ret x
  | [] => raise IndexError
  end.

(** [l[0]] *)
Definition index_first {A : Type} (l : list A) : res A :=
  match l with
  | x :: _ => ret x
  | [] => raise IndexError
  end.

(** *** Data model *)

Record Port : Type := mkPort {
  port_name : str;
  direction : option str;
  data_type : option str;
  width : option str
}.

Record Instance : Type := mkInstance {
  module_name : str;
  instance_name : str;
  connections : list (str * str)
}.

Record Module : Type := mkModule {
  name : str;
  parameters : list str;
  ports : list Port;
  instances : list Instance
}.

Definition KEYWORDS : list str :=
  [lit "if"; lit "for"; lit "case"; lit "always"; lit "assign";
   lit "generate"; lit "endmodule"].

(** *** Header *)

Definition comma : ascii := ascii_of_nat 44.

(** [[part.strip() for part in raw.split(",") if part.strip()]] *)
Definition stripped_parts (raw : str) : list str :=
  map strip (filter (fun part => nonempty (strip part)) (split_on comma raw)).

Definition parse_parameters (raw : option str) : list str :=
  match raw with
  | None => []
  | Some [] => []
  | Some raw =>
      let parts := stripped_parts raw in
      fold_left
        (fun cleaned part => cleaned ++ [strip (replace (lit "parameter") [] part)])
        parts []
  end.

Definition parse_ports_from_header (raw : option str) : res (list str) :=
  raw <- method_of raw ;;
  let parts := stripped_parts raw in
  for_each parts
    (fun names part =>
       let tokens := split_ws (replace [nl] (lit " ") part) in
       if nonempty tokens
       then t <- index_last tokens ;;
            ret (names ++ [strip_by (is_char ")") t])
       else ret names)
    [].

(** *** Body *)

Infix "+++" := Seq (right associativity, at level 60).

Definition lbracket : ascii := ascii_of_nat 91.
Definition rbracket : ascii := ascii_of_nat 93.

(** [r"\b(input|output|inout)\b\s*(reg|wire|logic)?\s*(\[[^\]]+\])?\s*([^;]+);"] *)
Definition port_decl : regex :=
  WordB +++ Grp 1 (Alt (Word "input") (Alt (Word "output") (Word "inout")))
  +++ WordB +++ Star true is_space
  +++ Opt (Grp 2 (Alt (Word "reg") (Alt (Word "wire") (Word "logic"))))
  +++ Star true is_space
  +++ Opt (Grp 3 (Chr (is_char lbracket) +++ Plus true (not_of (is_char rbracket))
                  +++ Chr (is_char rbracket)))
  +++ Star true is_space
  +++ Grp 4 (Plus true (not_of (is_char ";")))
  +++ Chr (is_char ";").

Definition parse_port_declarations (body : option str) : res (list Port) :=
  body <- expect_str body ;;
  for_each (finditer port_decl body)
    (fun ports m =>
       let direction := group m 1 in
       let data_type := group m 2 in
       let width := group m 3 in
       names <- method_of (group m 4) ;;
       for_each (split_on comma names)
         (fun ports name =>
            let clean_name := strip name in
            if negb (nonempty clean_name) then ret ports
            else
              clean_name <-
                (if contains_char "=" clean_name
                 then first <- index_first (split_on "=" clean_name) ;;
                      ret (strip first)
                 else ret clean_name) ;;
              ret (ports ++ [mkPort clean_name direction data_type width]))
         ports)
    [].

(** [r"\b(\w+)\s+(\w+)\s*\((.*?)\)\s*;"] with [re.DOTALL] *)
Definition instance_pattern : regex :=
  WordB +++ Grp 1 (Plus true is_word) +++ Plus true is_space
  +++ Grp 2 (Plus true is_word) +++ Star true is_space
  +++ Chr (is_char "(") +++ Grp 3 (Star false any_char) +++ Chr (is_char ")")
  +++ Star true is_space +++ Chr (is_char ";").

(** [r"\.(\w+)\s*\(\s*([^)]+)\s*\)"] *)
Definition connection_pattern : regex :=
  Chr (is_char ".") +++ Grp 1 (Plus true is_word) +++ Star true is_space
  +++ Chr (is_char "(") +++ Star true is_space
  +++ Grp 2 (Plus true (not_of (is_char ")"))) +++ Star true is_space
  +++ Chr (is_char ")").

Definition or_empty (o : option str) : str :=
  match o with Some t => t | None => [] end.

(** [re.findall] for a pattern with two groups: the pairs of their texts,
    the empty string for a group that took no part. *)
Definition findall2 (r : regex) (t : option str) : res (list (str * str)) :=
  t <- expect_str t ;;
  ret (map (fun m => (or_empty (group m 1), or_empty (group m 2))) (finditer r t)).

Definition is_keyword (o : option str) : bool :=
  match o with
  | Some n => str_in n KEYWORDS
  | None => false
  end.

Definition parse_instances (body : option str) : res (list Instance) :=
  body <- expect_str body ;;
  for_each (finditer instance_pattern body)
    (fun instances m =>
       let module_name := group m 1 in
       let instance_name := group m 2 in
       let raw_connections := group m 3 in
       if is_keyword module_name then ret instances
       else
         found <- findall2 connection_pattern raw_connections ;;
         connections <-
           for_each found
             (fun connections conn => ret (connections ++ [(fst conn, strip (snd conn))]))
             [] ;;
         module_name <- expect_str module_name ;;
         instance_name <- expect_str instance_name ;;
         ret (instances ++ [mkInstance module_name instance_name connections]))
    [].

(** *** Modules *)

(** [r"\bmodule\s+(\w+)\s*(#\s*\((?P<params>.*?)\))?\s*\((?P<ports>.*?)\)\s*;"
    r"(?P<body>.*?)\bendmodule"] with [re.DOTALL] *)
Definition module_pattern : regex :=
  WordB +++ Word "module" +++ Plus true is_space
  +++ Grp 1 (Plus true is_word) +++ Star true is_space
  +++ Opt (Grp 2 (Chr (is_char "#") +++ Star true is_space +++ Chr (is_char "(")
                  +++ Grp 3 (Star false any_char) +++ Chr (is_char ")")))
  +++ Star true is_space
  +++ Chr (is_char "(") +++ Grp 4 (Star false any_char) +++ Chr (is_char ")")
  +++ Star true is_space +++ Chr (is_char ";")
  +++ Grp 5 (Star false any_char) +++ WordB +++ Word "endmodule".

Definition g_params : nat := 3.
Definition g_ports : nat := 4.
Definition g_body : nat := 5.

Definition header_port (p : str) : Port := mkPort p None None None.

(** The body of the loop of [parse_modules]: one module boundary becomes
    one [Module]. *)
Definition assemble (m : mobj) : res Module :=
  name <- expect_str (group m 1) ;;
  let params := parse_parameters (group m g_params) in
  header_ports <- parse_ports_from_header (group m g_ports) ;;
  let body := group m g_body in
  ports <- parse_port_declarations body ;;
  let ports := if negb (nonempty ports) then map header_port header_ports else ports in
  instances <- parse_instances body ;;
  ret (mkModule name params ports instances).

(** The module boundaries of a text. *)
Definition module_matches (text : str) : list mobj :=
  finditer module_pattern (strip_comments text).

Definition parse_modules (text : str) : res (list Module) :=
  let clean := strip_comments text in
  for_each (finditer module_pattern clean)
    (fun modules m => md <- assemble m ;; ret (modules ++ [md]))
    [].

(** *** Rendering

    The renderers build their text in local lists of lines that grow by
    [append].  Those lists are objects of a store; a renderer is a
    computation on the store. *)

Definition store := list (list str).

Definition M (A : Type) : Type := store -> A * store.

Definition mret {A : Type} (x : A) : M A := fun h => (x, h).

Definition mbind {A B : Type} (c : M A) (k : A -> M B) : M B :=
  fun h => let (x, h1) := c h in k x h1.

Notation "x <~ c ;; k" := (mbind c (fun x => k))
  (at level 61, c at next level, right associativity).

Fixpoint update_at {A : Type} (i : nat) (f : A -> A) (l : list A) : list A :=
  match l, i with
  | [], _ => []
  | x :: tl, O => f x :: tl
  | x :: tl, S j => x :: update_at j f tl
  end.

(** [lines = [...]] *)
Definition new_list (init : list str) : M nat :=
  fun h => (length h, h ++ [init]).

(** [lines.append(x)] *)
Definition append (r : nat) (x : str) : M unit :=
  fun h => (tt, update_at r (fun l => l ++ [x]) h).

Definition contents (r : nat) : M (list str) :=
  fun h => (nth r h [], h).

Fixpoint mfor {A : Type} (l : list A) (body : A -> M unit) : M unit :=
  match l with
  | [] => mret tt
  | x :: tl => _ <~ body x ;; mfor tl body
  end.

(** [enumerate(l, start)] *)
Definition enumerate {A : Type} (start : nat) (l : list A) : list (nat * A) :=
  combine (seq start (length l)) l.

(** [str(n)] *)
Definition str_of_nat (n : nat) : str :=
  lit (NilEmpty.string_of_uint (Nat.to_uint n)).

(** [o or '-'] *)
Definition or_dash (o : option str) : str :=
  match o with
  | Some (c :: t) => c :: t
  | _ => lit "-"
  end.

Definition dq : ascii := ascii_of_nat 34.

Definition port_row (port : Port) : str :=
  lit "| " ++ port_name port ++ lit " | " ++ or_dash (direction port)
  ++ lit " | " ++ or_dash (data_type port) ++ lit " | " ++ or_dash (width port)
  ++ lit " |".

Definition format_port_table (ports : list Port) : M str :=
  rows <~ new_list [lit "| Name | Direction | Type | Width |";
                    lit "| --- | --- | --- | --- |"] ;;
  _ <~ mfor ports (fun port => append rows (port_row port)) ;;
  rows <~ contents rows ;;
  mret (join [nl] rows).

Definition make_mermaid (modules : list Module) : M str :=
  lines <~ new_list [lit "flowchart LR"] ;;
  _ <~ mfor modules
    (fun module =>
       let module_id := name module ++ lit "_self" in
       _ <~ append lines (lit "  subgraph " ++ name module) ;;
       _ <~ append lines
              (lit "    " ++ module_id ++ lit "[" ++ [dq] ++ name module ++ [dq] ++ lit "]") ;;
       _ <~ mfor (enumerate 1 (instances module))
         (fun ii =>
            let idx := fst ii in
            let instance := snd ii in
            let instance_id := name module ++ lit "_inst_" ++ str_of_nat idx in
            let label := module_name instance ++ lit " " ++ instance_name instance in
            _ <~ append lines
                   (lit "    " ++ instance_id ++ lit "[" ++ [dq] ++ label ++ [dq] ++ lit "]") ;;
            append lines (lit "    " ++ module_id ++ lit " --> " ++ instance_id)) ;;
       append lines (lit "  end")) ;;
  lines <~ contents lines ;;
  mret (join [nl] lines).

Definition build_documentation (modules : list Module) : M str :=
  lines <~ new_list [lit "# Verilog Design Documentation"; []] ;;
  _ <~ append lines (lit "## Module Diagram") ;;
  _ <~ append lines [] ;;
  _ <~ append lines (lit "```mermaid") ;;
  diagram <~ make_mermaid modules ;;
  _ <~ append lines diagram ;;
  _ <~ append lines (lit "```") ;;
  _ <~ append lines [] ;;
  _ <~ append lines (lit "## Modules") ;;
  _ <~ mfor modules
    (fun module =>
       _ <~ append lines [] ;;
       _ <~ append lines (lit "### " ++ name module) ;;
       _ <~ (if nonempty (parameters module)
             then _ <~ append lines [] ;;
                  _ <~ append lines (lit "**Parameters**") ;;
                  mfor (parameters module) (fun param => append lines (lit "- " ++ param))
             else mret tt) ;;
       _ <~ append lines [] ;;
       _ <~ append lines (lit "**Ports**") ;;
       table <~ format_port_table (ports module) ;;
       _ <~ append lines table ;;
       _ <~ append lines [] ;;
       _ <~ append lines (lit "**Instances**") ;;
       if nonempty (instances module)
       then mfor (instances module)
              (fun instance =>
                 _ <~ append lines
                        (lit "- `" ++ module_name instance ++ lit "` `"
                         ++ instance_name instance ++ lit "`") ;;
                 if nonempty (connections instance)
                 then mfor (connections instance)
                        (fun c => append lines
                                    (lit "  - ." ++ fst c ++ lit "(" ++ snd c ++ lit ")"))
                 else mret tt)
       else append lines (lit "- None")) ;;
  lines <~ contents lines ;;
  mret (join [nl] lines).

(** *** The command

    [main] after the command line is read: [content] is the text of the
    input file.  The two file operations are those of [pathlib], which the
    program does not define; they are parameters here, over any type of
    file systems, and each of them returns or raises and leaves a file
    system: [mkdir] is [args.output_dir.mkdir(parents=True, exist_ok=True)]
    and [write_text t] is [output_path.write_text(t, encoding="utf-8")]. *)

Section Command.

Variable world : Type.
Variable mkdir : world -> res unit * world.
Variable write_text : str -> world -> res unit * world.

Definition main (content : str) (w : world) (h : store) : res unit * world :=
  match parse_modules content with
  | inl e => (inl e, w)
  | inr modules =>
      if negb (nonempty modules)
      then (raise (ValueError (lit "No modules found in input.")), w)
      else
        match mkdir w with
        | (inl e, w1) => (inl e, w1)
        | (inr _, w1) => write_text (fst (build_documentation modules h)) w1
        end
  end.

End Command.

(** One file system, for the examples: the output directory and the output
    file; a directory can always be made, and a file is written where its
    directory is. *)
Record files : Type := Files {
  dir_made : bool;
  written : option str
}.

Definition files_mkdir (w : files) : res unit * files :=
  (ret tt, Files true (written w)).

Definition files_write_text (t : str) (w : files) : res unit * files :=
  if dir_made w then (ret tt, Files true (Some t)) else (raise OSError, w).

(** ** Reference functions for the comment patterns

    What one attempt of each comment pattern comes to, written directly on
    the text; the lemmas below show that the matcher computes them. *)

(** The number of characters before the end of the line. *)
Fixpoint eol_dist (t : str) : nat :=
  match t with
  | [] => 0
  | c :: tl => if is_nl c then 0 else S (eol_dist tl)
  end.

(** The length of the line comment that starts [t], if one does. *)
Definition line_len (t : str) : option nat :=
  if starts_with (lit "//") t then Some (2 + eol_dist (skipn 2 t)) else None.

(** The number of characters before the first [*/]. *)
Fixpoint close_dist (t : str) : option nat :=
  match t with
  | [] => None
  | c :: tl =>
      if starts_with (lit "*/") t then Some 0
      else option_map S (close_dist tl)
  end.

(** The length of the block comment that starts [t], if one does. *)
Definition block_len (t : str) : option nat :=
  if starts_with (lit "/*") t
  then option_map (fun n => 4 + n) (close_dist (skipn 2 t))
  else None.

(** Deleting from a text the stretches that [g] finds, from the left. *)
Fixpoint cut (g : str -> option nat) (t : str) (skip : nat) : str :=
  match t with
  | [] => []
  | c :: tl =>
      match skip with
      | S n => cut g tl n
      | O =>
          match g t with
          | Some (S n) => cut g tl n
          | _ => c :: cut g tl 0
          end
      end
  end.

(** Some suffix of [t] starts a stretch that [g] finds. *)
Fixpoint found_in (g : str -> option nat) (t : str) : bool :=
  match g t with
  | Some _ => true
  | None =>
      match t with
      | [] => false
      | _ :: tl => found_in g tl
      end
  end.

(** [a] is [b] with some characters deleted. *)
Inductive subseq : str -> str -> Prop :=
| subseq_nil : subseq [] []
| subseq_drop : forall c a b, subseq a b -> subseq a (c :: b)
| subseq_keep : forall c a b, subseq a b -> subseq (c :: a) (c :: b).

Definition count_nl (t : str) : nat := length (filter is_nl t).

(** The character before the position that follows the text [p]. *)
Definition prev_after (p : str) (pv : option ascii) : option ascii :=
  fold_left (fun _ c => Some c) p pv.

(** [pat in t] *)
Fixpoint occurs (pat t : str) : bool :=
  starts_with pat t ||
  match t with
  | [] => false
  | _ :: tl => occurs pat tl
  end.

(** ** Reference functions for the parsers

    The result of each parser as a function of the matches of its pattern,
    without the error plumbing; the lemmas below show that the parsers
    return exactly these and never raise. *)

(** The groups that a successful match of a pattern has certainly set. *)
Fixpoint sets (r : regex) : list nat :=
  match r with
  | Seq a b => sets a ++ sets b
  | Alt a b => filter (fun i => existsb (Nat.eqb i) (sets b)) (sets a)
  | Grp i a => i :: sets a
  | _ => []
  end.

(** The port names of a header text. *)
Definition header_names (raw : str) : list str :=
  flat_map
    (fun part =>
       match rev (split_ws (replace [nl] (lit " ") part)) with
       | t :: _ => [strip_by (is_char ")") t]
       | [] => []
       end)
    (stripped_parts raw).

(** The name of a port from one fragment of a name list. *)
Definition clean_port_name (fragment : str) : str :=
  let clean_name := strip fragment in
  if contains_char "=" clean_name
  then strip (hd [] (split_on "=" clean_name))
  else clean_name.

(** The ports of one match of [port_decl]. *)
Definition ports_of_declaration (m : mobj) : list Port :=
  flat_map
    (fun fragment =>
       if nonempty (strip fragment)
       then [mkPort (clean_port_name fragment) (group m 1) (group m 2) (group m 3)]
       else [])
    (split_on comma (or_empty (group m 4))).

Definition declared_ports (body : str) : list Port :=
  flat_map ports_of_declaration (finditer port_decl body).

(** The named connections of a connection list. *)
Definition connections_of (raw : str) : list (str * str) :=
  map (fun m => (or_empty (group m 1), strip (or_empty (group m 2))))
      (finditer connection_pattern raw).

(** The instance that one match of [instance_pattern] describes. *)
Definition instance_from (m : mobj) : Instance :=
  mkInstance (or_empty (group m 1)) (or_empty (group m 2))
    (connections_of (or_empty (group m 3))).

(** The instance of one match of [instance_pattern], none for a keyword. *)
Definition instance_of (m : mobj) : list Instance :=
  if is_keyword (group m 1) then [] else [instance_from m].

Definition found_instances (body : str) : list Instance :=
  flat_map instance_of (finditer instance_pattern body).

(** The module of one match of [module_pattern]. *)
Definition module_of (m : mobj) : Module :=
  let body := or_empty (group m g_body) in
  let declared := declared_ports body in
  mkModule (or_empty (group m 1))
    (parse_parameters (group m g_params))
    (if nonempty declared then declared
     else map header_port (header_names (or_empty (group m g_ports))))
    (found_instances body).

(** ** Reference functions for the parameter list *)

Definition keyword : str := lit "parameter".

(** A fragment without its leading keyword, trimmed. *)
Definition after_keyword (fragment : str) : str :=
  let s := strip fragment in
  strip (if starts_with keyword s then skipn (length keyword) s else s).

(** The keyword occurs in the fragment as its leading word only: the
    trimmed fragment starts with [parameter], white space or the end of the
    fragment follows, and [parameter] does not occur again; or it does not
    occur at all. *)
Definition leading_keyword_word (fragment : str) : bool :=
  let s := strip fragment in
  if starts_with keyword s
  then match skipn (length keyword) s with
       | [] => true
       | c :: _ => is_space c
       end
       && negb (occurs keyword (skipn (length keyword) s))
  else negb (occurs keyword s).

(** From [s] to [s1] inside one attempt: the groups that were set stay set
    and the position does not move back. *)
Definition passes (s s1 : cursor) : Prop :=
  (forall i, get_cap i (caps s) <> None -> get_cap i (caps s1) <> None)
  /\ length (rest s1) <= length (rest s).

(** The header of a module boundary names a port: some fragment between
    the commas of its port list is not blank. *)
Definition declares_header_port (m : mobj) : Prop :=
  exists part,
    In part (split_on comma (or_empty (group m g_ports))) /\ strip part <> [].

(** The body of a module boundary declares a port: some declaration in it
    has a name that is not blank. *)
Definition declares_body_port (m : mobj) : Prop :=
  exists d fragment,
    In d (finditer port_decl (or_empty (group m g_body)))
    /\ In fragment (split_on comma (or_empty (group d 4)))
    /\ strip fragment <> [].

(** ** Reference functions for the renderers

    The lines of each text as a function of the modules alone. *)

Definition table_rows (ports : list Port) : list str :=
  [lit "| Name | Direction | Type | Width |"; lit "| --- | --- | --- | --- |"]
  ++ map port_row ports.

Definition table_text (ports : list Port) : str := join [nl] (table_rows ports).

Definition instance_node_lines (module : Module) (ii : nat * Instance) : list str :=
  let instance_id := name module ++ lit "_inst_" ++ str_of_nat (fst ii) in
  let label := module_name (snd ii) ++ lit " " ++ instance_name (snd ii) in
  [lit "    " ++ instance_id ++ lit "[" ++ [dq] ++ label ++ [dq] ++ lit "]";
   lit "    " ++ (name module ++ lit "_self") ++ lit " --> " ++ instance_id].

Definition mermaid_module_lines (module : Module) : list str :=
  [lit "  subgraph " ++ name module;
   lit "    " ++ (name module ++ lit "_self") ++ lit "[" ++ [dq] ++ name module
   ++ [dq] ++ lit "]"]
  ++ flat_map (instance_node_lines module) (enumerate 1 (instances module))
  ++ [lit "  end"].

Definition mermaid_text (modules : list Module) : str :=
  join [nl] ([lit "flowchart LR"] ++ flat_map mermaid_module_lines modules).

(** The values that [instance_id] takes in the inner loop of [make_mermaid]
    on one module, in the order of the loop. *)
Definition instance_ids (module : Module) : list str :=
  map (fun ii => name module ++ lit "_inst_" ++ str_of_nat (fst ii))
      (enumerate 1 (instances module)).

(** The lines of one module in the diagram, with each instance next to its
    identifier. *)
Definition diagram_block (module : Module) : list str :=
  [lit "  subgraph " ++ name module;
   lit "    " ++ (name module ++ lit "_self") ++ lit "[" ++ [dq] ++ name module
   ++ [dq] ++ lit "]"]
  ++ flat_map
       (fun p =>
          [lit "    " ++ fst p ++ lit "[" ++ [dq]
           ++ (module_name (snd p) ++ lit " " ++ instance_name (snd p))
           ++ [dq] ++ lit "]";
           lit "    " ++ (name module ++ lit "_self") ++ lit " --> " ++ fst p])
       (combine (instance_ids module) (instances module))
  ++ [lit "  end"].

Definition instance_lines (instance : Instance) : list str :=
  [lit "- `" ++ module_name instance ++ lit "` `" ++ instance_name instance ++ lit "`"]
  ++ map (fun c => lit "  - ." ++ fst c ++ lit "(" ++ snd c ++ lit ")")
         (connections instance).

Definition section_lines (module : Module) : list str :=
  [[]; lit "### " ++ name module]
  ++ (if nonempty (parameters module)
      then [[]; lit "**Parameters**"]
           ++ map (fun param => lit "- " ++ param) (parameters module)
      else [])
  ++ [[]; lit "**Ports**"; table_text (ports module); []; lit "**Instances**"]
  ++ (if nonempty (instances module)
      then flat_map instance_lines (instances module)
      else [lit "- None"]).

Definition document_text (modules : list Module) : str :=
  join [nl]
    ([lit "# Verilog Design Documentation"; []]
     ++ [lit "## Module Diagram"; []; lit "```mermaid"; mermaid_text modules;
         lit "```"; []; lit "## Modules"]
     ++ flat_map section_lines modules).

(** A computation that appends the lines [gen] to the list object [r],
    leaves the objects before [r] alone and may add objects of its own. *)
Definition appends (r : nat) (c : M unit) (gen : list str) : Prop :=
  forall h L g, length h = r ->
    exists g', c (h ++ L :: g) = (tt, h ++ (L ++ gen) :: g').

(** A computation that does the same and ends by returning [F] of the
    list. *)
Definition finishes (r : nat) (c : M str) (gen : list str) (F : list str -> str) : Prop :=
  forall h L g, length h = r ->
    exists g', c (h ++ L :: g) = (F (L ++ gen), h ++ (L ++ gen) :: g').

(** A computation that returns [v] from every store and only adds objects
    to it. *)
Definition returns {A : Type} (c : M A) (v : A) : Prop :=
  forall h, exists junk, c h = (v, h ++ junk).

(** The least number of characters that a match of a pattern takes. *)
Fixpoint min_len (r : regex) : nat :=
  match r with
  | Chr _ => 1
  | Seq a b => min_len a + min_len b
  | Alt a b => Nat.min (min_len a) (min_len b)
  | Grp _ a => min_len a
  | _ => 0
  end.

(** ** What a match consists of *)

(** The texts that a pattern can take, whatever stands around them: the
    anchors take the empty text. *)
Fixpoint spans (r : regex) (w : str) : Prop :=
  match r with
  | Eps => w = []
  | Chr p => exists c, w = [c] /\ p c = true
  | Seq a b => exists u v, w = u ++ v /\ spans a u /\ spans b v
  | Alt a b => spans a w \/ spans b w
  | Opt a => spans a w \/ w = []
  | Star _ p => forallb p w = true
  | Grp _ a => spans a w
  | WordB => w = []
  | Eol => w = []
  end.

(** Every text that a group of the pattern can take has the property that
    [Q] gives for the group. *)
Fixpoint respects (Q : nat -> str -> Prop) (r : regex) : Prop :=
  match r with
  | Seq a b => respects Q a /\ respects Q b
  | Alt a b => respects Q a /\ respects Q b
  | Opt a => respects Q a
  | Grp i a => respects Q a /\ (forall w, spans a w -> Q i w)
  | _ => True
  end.

(** The groups that are set hold texts with the property that [Q] gives
    for them. *)
Definition caps_hold (Q : nat -> str -> Prop) (cps : list (option str)) : Prop :=
  forall i v, get_cap i cps = Some v -> Q i v.

(** A text of one or more word characters. *)
Definition word_text (w : str) : Prop := w <> [] /\ forallb is_word w = true.

(** A text of one or more characters, none of them [c]. *)
Definition text_without (c : ascii) (w : str) : Prop :=
  w <> [] /\ forallb (not_of (is_char c)) w = true.

(** What the groups of each pattern hold. *)
Definition module_group_spec (i : nat) (w : str) : Prop :=
  match i with
  | 1 => word_text w
  | _ => True
  end.

Definition port_decl_group_spec (i : nat) (w : str) : Prop :=
  match i with
  | 1 => In w [lit "input"; lit "output"; lit "inout"]
  | 2 => In w [lit "reg"; lit "wire"; lit "logic"]
  | 3 => exists x, w = [lbracket] ++ x ++ [rbracket] /\ text_without rbracket x
  | 4 => text_without ";" w
  | _ => True
  end.

Definition instance_group_spec (i : nat) (w : str) : Prop :=
  match i with
  | 1 => word_text w
  | 2 => word_text w
  | _ => True
  end.

Definition connection_group_spec (i : nat) (w : str) : Prop :=
  match i with
  | 1 => word_text w
  | 2 => text_without ")" w
  | _ => True
  end.

(** A text that neither starts nor ends with a character of [p]. *)
Definition trimmed_by (p : ascii -> bool) (t : str) : Prop :=
  (forall c tl, t = c :: tl -> p c = false)
  /\ (forall c tl, rev t = c :: tl -> p c = false).

(** A text without white space at its ends. *)
Definition trimmed (t : str) : Prop := trimmed_by is_space t.

(** A text in which [c] does not occur. *)
Definition lacks (c : ascii) (t : str) : Prop := ~ In c t.

(** The part of a line before its first pair of slashes. *)
Fixpoint before_comment (line : str) : str :=
  match line with
  | [] => []
  | c :: tl => if starts_with (lit "//") line then [] else c :: before_comment tl
  end.

(** Match objects that lie one after the other between [lo] and [hi], none
    of them empty. *)
Fixpoint in_order (lo : nat) (l : list mobj) (hi : nat) : Prop :=
  match l with
  | [] => lo <= hi
  | m :: tl => lo <= m_start m /\ m_start m < m_end m /\ in_order (m_end m) tl hi
  end.

(** ** image_generator: colours and command-line values

    The functions of [src/image_generator.py] that do not touch an image:
    the colour record and the parsers of the command-line values.  Python
    integers are [Z].  The built-in [int] is a parameter of the parsers that
    use it: [None] is its [ValueError]. *)

Module ImageGenerator.
Import ZArith.ZArith.
Local Open Scope Z_scope.

Record RGB : Type := mkRGB {
  r : Z;
  g : Z;
  b : Z
}.

Record Size : Type := mkSize {
  size_width : Z;
  size_height : Z
}.

(** [RGB.clamp] *)
Definition clamp (self : RGB) : RGB :=
  mkRGB (Z.max 0 (Z.min 255 (r self)))
        (Z.max 0 (Z.min 255 (g self)))
        (Z.max 0 (Z.min 255 (b self))).

(** [RGB.invert] *)
Definition invert (self : RGB) : RGB :=
  mkRGB (255 - r self) (255 - g self) (255 - b self).

(** [str.lower] on one character of the range 0..255. *)
Definition lower_char (c : ascii) : ascii :=
  if in_range 65 90 c || in_range 192 214 c || in_range 216 222 c
  then ascii_of_nat (code c + 32)
  else c.

(** [t.lower()] *)
Definition lower (t : str) : str := map lower_char t.

Definition apply_channel_mask (color : RGB) (channels : str) : RGB :=
  let channels := lower channels in
  mkRGB (if contains_char "r" channels then r color else 0)
        (if contains_char "g" channels then g color else 0)
        (if contains_char "b" channels then b color else 0).

Definition invert_channels (color : RGB) (channels : str) : RGB :=
  let channels := lower channels in
  mkRGB (if contains_char "r" channels then 255 - r color else 0)
        (if contains_char "g" channels then 255 - g color else 0)
        (if contains_char "b" channels then 255 - b color else 0).

Inductive error : Type :=
| ArgumentTypeError : str -> error
| IntValueError : error.

Definition result (A : Type) : Type := (error + A)%type.

Definition rbind {A B : Type} (c : result A) (k : A -> result B) : result B :=
  match c with
  | inl e => inl e
  | inr x => k x
  end.

(** [[f(p) for p in l]] where [f] may raise: the first failure ends it. *)
Fixpoint each {A B : Type} (f : A -> result B) (l : list A) : result (list B) :=
  match l with
  | [] => inr []
  | x :: tl => rbind (f x) (fun y => rbind (each f tl) (fun ys => inr (y :: ys)))
  end.

(** A [for] loop whose body only checks and may raise. *)
Fixpoint for_in {A : Type} (l : list A) (body : A -> result unit) : result unit :=
  match l with
  | [] => inr tt
  | x :: tl => rbind (body x) (fun _ => for_in tl body)
  end.

Section WithInt.
Variable py_int : str -> option Z.

Definition int (p : str) : result Z :=
  match py_int p with
  | Some n => inr n
  | None => inl IntValueError
  end.

Definition parse_rgb (value : str) : result RGB :=
  rbind (each int (split_on comma value))
    (fun parts =>
       match parts with
       | [x; y; z] => inr (clamp (mkRGB x y z))
       | _ => inl (ArgumentTypeError (lit "RGB must be in R,G,B format."))
       end).

Definition parse_size (value : str) : result Size :=
  rbind (each int (split_on "x" (lower value)))
    (fun parts =>
       match parts with
       | [x; y] => inr (mkSize x y)
       | _ => inl (ArgumentTypeError (lit "Size must be in WIDTHxHEIGHT format."))
       end).
End WithInt.

Definition allowed : list str :=
  [lit "png"; lit "bmp"; lit "ppm_p3"; lit "ppm_p6"].

Definition parse_formats (value : str) : result (list str) :=
  let formats :=
    map (fun part => lower (strip part))
        (filter (fun part => nonempty (strip part)) (split_on comma value)) in
  rbind
    (for_in formats
       (fun fmt =>
          if negb (str_in fmt allowed)
          then inl (ArgumentTypeError
                      (lit "Formats must be png, bmp, ppm_p3, or ppm_p6."))
          else inr tt))
    (fun _ => inr formats).

(** A colour whose channels are all between 0 and 255. *)
Definition in_gamut (c : RGB) : Prop :=
  0 <= r c <= 255 /\ 0 <= g c <= 255 /\ 0 <= b c <= 255.

End ImageGenerator.

(** ** Comments taken from the left

    The comments of a text as a reader finds them, going through it once
    from the left: a line comment or a block comment may start wherever the
    text is not already inside one. *)

(** The length of the comment that starts [t], if one does. *)
Definition comment_len (t : str) : option nat :=
  match line_len t with
  | Some n => Some n
  | None => block_len t
  end.

(** The text with its comments removed and all the rest kept. *)
Definition without_comments (t : str) : str := cut comment_len t 0.

(** No pair of slashes lies inside a block comment of the text or across
    its end. *)
Fixpoint separate (t : str) (skip : nat) : bool :=
  match t with
  | [] => true
  | c :: tl =>
      match skip with
      | S n => separate tl n
      | O =>
          match line_len t with
          | Some (S n) => separate tl n
          | _ =>
              match block_len t with
              | Some (S n) =>
                  negb (occurs (lit "//") (firstn (S (S n)) t)) && separate tl n
              | _ => separate tl 0
              end
          end
      end
  end.

(** The number of newlines inside the block comments of the text. *)
Fixpoint block_newlines (t : str) (skip : nat) : nat :=
  match t with
  | [] => 0
  | c :: tl =>
      match skip with
      | S n => block_newlines tl n
      | O =>
          match line_len t with
          | Some (S n) => block_newlines tl n
          | _ =>
              match block_len t with
              | Some (S n) => count_nl (firstn (S n) t) + block_newlines tl n
              | _ => block_newlines tl 0
              end
          end
      end
  end.

(** * Properties *)

Unset Implicit Arguments.

Example strip_comments_sample :
  strip_comments (lit "a // x" ++ [nl] ++ lit "b /* y */ c /* open")
  = lit "a " ++ [nl] ++ lit "b  c /* open".
Proof. vm_compute. reflexivity. Qed.

(** ** Scanning *)

Section CutFacts.
Variable g : str -> option nat.

Lemma sub_scan_cut (G : Type) (f : option ascii -> str -> option (nat * G)) :
  (forall pv t, option_map fst (f pv t) = g t) ->
  forall t pv skip, sub_scan f [] pv t skip = cut g t skip.
Proof.
  intros Hf t; induction t as [|c tl IH]; intros pv skip.
  - destruct skip; simpl; [|reflexivity].
    destruct (f pv []) as [[len x]|]; reflexivity.
  - destruct skip; simpl; [|apply IH].
    rewrite <- (Hf pv (c :: tl)).
    destruct (f pv (c :: tl)) as [[[|len] x]|]; simpl; rewrite ?IH; reflexivity.
Qed.

Lemma cut_skipn : forall n t, cut g t n = cut g (skipn n t) 0.
Proof.
  induction n as [|n IH]; intros t; [reflexivity|].
  destruct t as [|c tl]; [reflexivity|]. simpl. apply IH.
Qed.

Lemma cut_step : forall c tl,
  cut g (c :: tl) 0 =
  match g (c :: tl) with
  | Some (S n) => cut g (skipn n tl) 0
  | _ => c :: cut g tl 0
  end.
Proof.
  intros c tl. simpl. destruct (g (c :: tl)) as [[|n]|]; try reflexivity.
  apply cut_skipn.
Qed.

Lemma found_in_skipn : forall n t, found_in g t = false -> found_in g (skipn n t) = false.
Proof.
  induction n as [|n IH]; intros t H; [exact H|].
  destruct t as [|c tl]; [exact H|]. simpl. apply IH.
  simpl in H. destruct (g (c :: tl)); [discriminate|exact H].
Qed.

Lemma found_in_head : forall t, found_in g t = false -> g t = None.
Proof.
  intros t H. destruct t; simpl in H; destruct (g _); congruence.
Qed.

Lemma found_in_tail : forall c t, found_in g (c :: t) = false -> found_in g t = false.
Proof.
  intros c t H. simpl in H. destruct (g (c :: t)); congruence.
Qed.

Lemma found_in_cons : forall c t,
  g (c :: t) = None -> found_in g t = false -> found_in g (c :: t) = false.
Proof.
  intros c t H1 H2. simpl. rewrite H1. exact H2.
Qed.

Lemma cut_fixed : forall t, found_in g t = false -> cut g t 0 = t.
Proof.
  induction t as [|c tl IH]; intros H; [reflexivity|].
  rewrite cut_step, (found_in_head _ H), IH; [reflexivity|].
  exact (found_in_tail _ _ H).
Qed.

Lemma cut_subseq : forall t n, subseq (cut g t n) t.
Proof.
  induction t as [|c tl IH]; intros n; simpl; [constructor|].
  destruct n as [|n]; [|constructor; apply IH].
  destruct (g (c :: tl)) as [[|m]|]; constructor; apply IH.
Qed.
End CutFacts.

Lemma subseq_trans : forall a b c, subseq a b -> subseq b c -> subseq a c.
Proof.
  intros a b c Hab Hbc; revert a Hab.
  induction Hbc; intros x Hx.
  - exact Hx.
  - constructor. apply IHHbc, Hx.
  - inversion Hx; subst.
    + constructor. apply IHHbc. assumption.
    + apply subseq_keep. apply IHHbc. assumption.
Qed.

Lemma subseq_length : forall a b, subseq a b -> length a <= length b.
Proof. induction 1; simpl; lia. Qed.

(** ** The matcher on the comment patterns *)

Lemma rmatch_Lits : forall p s k,
  rmatch (Lits p) s k =
  if starts_with p (rest s)
  then k (Cursor (prev_after p (prev s)) (skipn (length p) (rest s)) (caps s))
  else None.
Proof.
  induction p as [|a p IH]; intros [pv t cps] k; simpl.
  - reflexivity.
  - destruct t as [|c tl]; [reflexivity|].
    destruct (is_char a c) eqn:E; simpl; [|reflexivity].
    apply Ascii.eqb_eq in E. subst c.
    rewrite IH. reflexivity.
Qed.

Lemma starts_with_length : forall p t, starts_with p t = true -> length p <= length t.
Proof.
  induction p as [|a p IH]; intros t H; simpl; [lia|].
  destruct t as [|c tl]; [discriminate|]. simpl in *.
  apply andb_prop in H. destruct H as [_ H]. apply IH in H. lia.
Qed.

Lemma eol_dist_le : forall t, eol_dist t <= length t.
Proof.
  induction t as [|c tl IH]; simpl; [lia|]. destruct (is_nl c); simpl; lia.
Qed.

Lemma close_dist_le : forall t n, close_dist t = Some n -> 2 + n <= length t.
Proof.
  induction t as [|c tl IH]; intros n H; [discriminate|].
  cbn [close_dist] in H.
  destruct (starts_with (lit "*/") (c :: tl)) eqn:E.
  - injection H as <-. apply starts_with_length in E. exact E.
  - destruct (close_dist tl) as [m|]; [|discriminate].
    injection H as <-. specialize (IH m eq_refl). simpl. lia.
Qed.

Section LazyRuns.
Variable R : Type.
Variable k : option ascii -> str -> option R.
Variable F : option ascii -> str -> R.

Lemma star_lazy_eol :
  (forall pv t, k pv t =
     match t with
     | [] => Some (F pv t)
     | c :: _ => if is_nl c then Some (F pv t) else None
     end) ->
  forall t pv, exists pv',
    star_lazy (not_of is_nl) k pv t = Some (F pv' (skipn (eol_dist t) t)).
Proof.
  intros Hk. induction t as [|c tl IH]; intros pv.
  - exists pv. simpl. rewrite Hk. reflexivity.
  - simpl. rewrite Hk. unfold not_of. destruct (is_nl c); simpl.
    + exists pv. reflexivity.
    + apply IH.
Qed.

Lemma star_lazy_close :
  (forall pv t, k pv t =
     if starts_with (lit "*/") t then Some (F pv (skipn 2 t)) else None) ->
  forall t pv,
    match close_dist t with
    | Some n => exists pv', star_lazy any_char k pv t = Some (F pv' (skipn (2 + n) t))
    | None => star_lazy any_char k pv t = None
    end.
Proof.
  intros Hk. induction t as [|c tl IH]; intros pv.
  - simpl. rewrite Hk. reflexivity.
  - cbn [star_lazy close_dist]. rewrite Hk.
    destruct (starts_with (lit "*/") (c :: tl)) eqn:E.
    + exists pv. reflexivity.
    + unfold any_char at 1. unfold any_char at 1. specialize (IH (Some c)).
      destruct (close_dist tl); exact IH.
Qed.
End LazyRuns.

Lemma match_at_line : forall pv t,
  option_map fst (match_at line_comment pv t) = line_len t.
Proof.
  intros pv t. unfold match_at, line_comment, line_len.
  cbn [rmatch]. unfold Word. rewrite rmatch_Lits. cbn [rest caps prev].
  destruct (starts_with (lit "//") t) eqn:E; [|reflexivity].
  match goal with
  | |- context [star_lazy _ ?k ?a ?b] =>
      destruct (star_lazy_eol _ k
                  (fun pv0 t0 =>
                     Cursor pv0 t0
                       (set_cap 0 (consumed (Cursor pv t []) (Cursor pv0 t0 [])) []))
                  (fun _ _ => eq_refl) b a) as [pv' H]
  end.
  rewrite H. cbn [option_map fst rest].
  apply starts_with_length in E. change (length (lit "//")) with 2 in *.
  pose proof (eol_dist_le (skipn 2 t)) as L.
  rewrite !length_skipn in *. f_equal. lia.
Qed.

Lemma match_at_block : forall pv t,
  option_map fst (match_at block_comment pv t) = block_len t.
Proof.
  intros pv t. unfold match_at, block_comment, block_len.
  cbn [rmatch]. unfold Word at 1. rewrite rmatch_Lits. cbn [rest caps prev].
  destruct (starts_with (lit "/*") t) eqn:E; [|reflexivity].
  change (length (lit "/*")) with 2.
  match goal with
  | |- context [star_lazy _ ?k ?a ?b] =>
      assert (H := star_lazy_close _ k
                  (fun pv0 t0 =>
                     Cursor (Some "/"%char) t0
                       (set_cap 0 (consumed (Cursor pv t []) (Cursor pv0 t0 [])) []))); 
      specialize (fun Hk => H Hk b a)
  end.
  destruct (close_dist (skipn 2 t)) as [n|] eqn:C.
  - destruct H as [pv' H].
    { intros pv0 t0. unfold Word. rewrite rmatch_Lits. reflexivity. }
    rewrite H. cbn [option_map fst rest].
    apply starts_with_length in E. change (length (lit "/*")) with 2 in E.
    apply close_dist_le in C.
    rewrite !length_skipn in *. f_equal. lia.
  - rewrite H; [reflexivity|].
    intros pv0 t0. unfold Word. rewrite rmatch_Lits. reflexivity.
Qed.

Lemma strip_comments_cut : forall t,
  strip_comments t = cut block_len (cut line_len t 0) 0.
Proof.
  intros t. unfold strip_comments, re_sub.
  rewrite (sub_scan_cut line_len _ _ match_at_line).
  rewrite (sub_scan_cut block_len _ _ match_at_block).
  reflexivity.
Qed.

(** ** What the two passes leave behind *)

Lemma line_len_not_slash : forall c t, is_char "/" c = false -> line_len (c :: t) = None.
Proof. intros c t H. unfold line_len. cbn. rewrite H. reflexivity. Qed.

Lemma block_len_not_slash : forall c t, is_char "/" c = false -> block_len (c :: t) = None.
Proof. intros c t H. unfold block_len. cbn. rewrite H. reflexivity. Qed.

Lemma line_len_second : forall c d t, is_char "/" d = false -> line_len (c :: d :: t) = None.
Proof.
  intros c d t H. unfold line_len. cbn. rewrite H.
  rewrite andb_false_r. reflexivity.
Qed.

Lemma block_len_second : forall c d t, is_char "*" d = false -> block_len (c :: d :: t) = None.
Proof.
  intros c d t H. unfold block_len. cbn. rewrite H.
  rewrite andb_false_r. reflexivity.
Qed.

Lemma line_len_single : forall c, line_len [c] = None.
Proof. intros c. unfold line_len. cbn. rewrite andb_false_r. reflexivity. Qed.

Lemma block_len_single : forall c, block_len [c] = None.
Proof. intros c. unfold block_len. cbn. rewrite andb_false_r. reflexivity. Qed.

Lemma line_len_pos : forall t, line_len t <> Some 0.
Proof. intros t. unfold line_len. destruct (starts_with _ t); discriminate. Qed.

Lemma block_len_pos : forall t, block_len t <> Some 0.
Proof.
  intros t. unfold block_len. destruct (starts_with _ t); [|discriminate].
  destruct (close_dist _); discriminate.
Qed.

(** A line comment is found exactly where the text has two slashes. *)
Lemma line_len_none : forall c d t,
  line_len (c :: d :: t) = None -> is_char "/" c = true -> is_char "/" d = false.
Proof.
  intros c d t H Hc. unfold line_len in H. cbn in H. rewrite Hc in H.
  destruct (is_char "/" d); [discriminate|reflexivity].
Qed.

Lemma line_pass_clean_aux : forall n t, length t <= n ->
  found_in line_len (cut line_len t 0) = false.
Proof.
  induction n as [|n IH]; intros t Hn.
  - destruct t; [reflexivity|simpl in Hn; lia].
  - destruct t as [|c tl]; [reflexivity|]. simpl in Hn.
    rewrite cut_step. destruct (line_len (c :: tl)) as [[|m]|] eqn:E.
    + exfalso. exact (line_len_pos _ E).
    + apply IH. rewrite length_skipn. lia.
    + apply found_in_cons; [|apply IH; lia].
      destruct (is_char "/" c) eqn:Hc; [|apply line_len_not_slash, Hc].
      destruct tl as [|d tl']; [apply line_len_single|].
      pose proof (line_len_none _ _ _ E Hc) as Hd.
      rewrite cut_step, (line_len_not_slash _ _ Hd).
      apply line_len_second, Hd.
Qed.

(** After the first pass no two slashes are left. *)
Lemma line_pass_clean : forall t, found_in line_len (cut line_len t 0) = false.
Proof. intros t. exact (line_pass_clean_aux (length t) t (le_n _)). Qed.

Lemma close_dist_cons_none : forall c t, close_dist (c :: t) = None -> close_dist t = None.
Proof.
  intros c t H. cbn [close_dist] in H.
  destruct (starts_with (lit "*/") (c :: t)); [discriminate|].
  destruct (close_dist t); [discriminate|reflexivity].
Qed.

Lemma block_len_open : forall c d t,
  is_char "/" c = true -> is_char "*" d = true ->
  block_len (c :: d :: t) = option_map (fun n => 4 + n) (close_dist t).
Proof.
  intros c d t Hc Hd. unfold block_len. cbn. rewrite Hc, Hd. reflexivity.
Qed.

(** Without a closing mark ahead there is no block comment ahead. *)
Lemma no_close_no_block : forall t, close_dist t = None -> found_in block_len t = false.
Proof.
  induction t as [|c tl IH]; intros H; [reflexivity|].
  pose proof (close_dist_cons_none _ _ H) as Ht.
  apply found_in_cons; [|apply IH, Ht].
  destruct (is_char "/" c) eqn:Hc; [|apply block_len_not_slash, Hc].
  destruct tl as [|d tl']; [apply block_len_single|].
  destruct (is_char "*" d) eqn:Hd; [|apply block_len_second, Hd].
  rewrite (block_len_open _ _ _ Hc Hd), (close_dist_cons_none _ _ Ht). reflexivity.
Qed.

Lemma block_pass_clean_aux : forall n t, length t <= n ->
  found_in line_len t = false ->
  found_in line_len (cut block_len t 0) = false
  /\ found_in block_len (cut block_len t 0) = false.
Proof.
  induction n as [|n IH]; intros t Hn Hl.
  - destruct t; [split; reflexivity|simpl in Hn; lia].
  - destruct t as [|c tl]; [split; reflexivity|]. simpl in Hn.
    pose proof (found_in_tail _ _ _ Hl) as Hl'.
    rewrite cut_step. destruct (block_len (c :: tl)) as [[|m]|] eqn:E.
    + exfalso. exact (block_len_pos _ E).
    + apply IH; [rewrite length_skipn; lia|]. apply found_in_skipn, Hl'.
    + destruct (IH tl ltac:(lia) Hl') as [IH1 IH2].
      enough (line_len (c :: cut block_len tl 0) = None
              /\ block_len (c :: cut block_len tl 0) = None) as [G1 G2].
      { split; apply found_in_cons; assumption. }
      destruct (is_char "/" c) eqn:Hc;
        [|split; [apply line_len_not_slash|apply block_len_not_slash]; exact Hc].
      destruct tl as [|d tl']; [split; [apply line_len_single|apply block_len_single]|].
      pose proof (line_len_none _ _ _ (found_in_head _ _ Hl) Hc) as Hd.
      rewrite cut_step, (block_len_not_slash _ _ Hd).
      split; [apply line_len_second, Hd|].
      destruct (is_char "*" d) eqn:Hs; [|apply block_len_second, Hs].
      rewrite (block_len_open _ _ _ Hc Hs) in E.
      assert (close_dist tl' = None) as Hn' by (destruct (close_dist tl'); [discriminate|reflexivity]).
      rewrite (cut_fixed _ _ (no_close_no_block _ Hn')).
      rewrite (block_len_open _ _ _ Hc Hs), Hn'. reflexivity.
Qed.

(** After the second pass there is still no pair of slashes, and no block
    comment either. *)
Lemma block_pass_clean : forall t,
  found_in line_len t = false ->
  found_in line_len (cut block_len t 0) = false
  /\ found_in block_len (cut block_len t 0) = false.
Proof. intros t. exact (block_pass_clean_aux (length t) t (le_n _)). Qed.

Lemma strip_comments_clean : forall t,
  found_in line_len (strip_comments t) = false
  /\ found_in block_len (strip_comments t) = false.
Proof.
  intros t. rewrite strip_comments_cut.
  apply block_pass_clean, line_pass_clean.
Qed.

(** C4: comment stripping is idempotent: stripping a text that was already
    stripped returns it unchanged. *)
Theorem strip_comments_idempotent : forall t,
  strip_comments (strip_comments t) = strip_comments t.
Proof.
  intros t. destruct (strip_comments_clean t) as [Hl Hb].
  rewrite (strip_comments_cut (strip_comments t)).
  rewrite (cut_fixed _ _ Hl), (cut_fixed _ _ Hb). reflexivity.
Qed.

(** ** Newlines and the text outside the comments *)

Lemma scan_nil_iff (G : Type) (f : option ascii -> str -> option (nat * G))
      (g : str -> option nat) :
  (forall pv t, option_map fst (f pv t) = g t) ->
  forall t pv pos, scan f pv pos t 0 = [] <-> found_in g t = false.
Proof.
  intros Hf. induction t as [|c tl IH]; intros pv pos; simpl;
    rewrite <- (Hf pv); destruct (f pv _) as [[len x]|]; simpl.
  - split; discriminate.
  - split; reflexivity.
  - split; discriminate.
  - apply IH.
Qed.

Lemma finditer_nil_iff (r : regex) (g : str -> option nat) :
  (forall pv t, option_map fst (match_at r pv t) = g t) ->
  forall t, finditer r t = [] <-> found_in g t = false.
Proof.
  intros Hf t. unfold finditer.
  rewrite <- (scan_nil_iff _ _ g Hf t None 0).
  destruct (scan (match_at r) None 0 t 0); simpl; split; congruence.
Qed.

Lemma count_nl_cons : forall c t,
  count_nl (c :: t) = (if is_nl c then 1 else 0) + count_nl t.
Proof. intros c t. unfold count_nl. simpl. destruct (is_nl c); reflexivity. Qed.

Lemma count_nl_eol : forall t, count_nl (skipn (eol_dist t) t) = count_nl t.
Proof.
  induction t as [|c tl IH]; [reflexivity|].
  simpl eol_dist. destruct (is_nl c) eqn:E; [reflexivity|].
  simpl skipn. rewrite IH, count_nl_cons, E. reflexivity.
Qed.

Lemma subseq_count_nl : forall a b, subseq a b -> count_nl a <= count_nl b.
Proof.
  induction 1; rewrite ?count_nl_cons; lia.
Qed.

Lemma line_len_some : forall t n, line_len t = Some n ->
  exists tl, t = "/"%char :: "/"%char :: tl /\ n = 2 + eol_dist tl.
Proof.
  intros t n H. unfold line_len in H.
  destruct t as [|c [|d tl]]; cbn in H; rewrite ?andb_false_r in H; try discriminate.
  destruct (is_char "/" c) eqn:Hc; [|discriminate].
  destruct (is_char "/" d) eqn:Hd; [|discriminate].
  apply Ascii.eqb_eq in Hc, Hd. subst. cbn in H. injection H as <-.
  exists tl. split; reflexivity.
Qed.

Lemma line_pass_newlines_aux : forall n t, length t <= n ->
  count_nl (cut line_len t 0) = count_nl t.
Proof.
  induction n as [|n IH]; intros t Hn.
  - destruct t; [reflexivity|simpl in Hn; lia].
  - destruct t as [|c tl]; [reflexivity|]. simpl in Hn.
    rewrite cut_step. destruct (line_len (c :: tl)) as [[|m]|] eqn:E.
    + rewrite !count_nl_cons, IH by lia. reflexivity.
    + apply line_len_some in E. destruct E as (tl2 & Ht & Hm).
      injection Ht as -> ->. injection Hm as ->.
      simpl in Hn.
      rewrite IH by (rewrite length_skipn; simpl; lia).
      simpl skipn. rewrite count_nl_eol, !count_nl_cons. reflexivity.
    + rewrite !count_nl_cons, IH by lia. reflexivity.
Qed.

(** The first pass keeps every newline. *)
Lemma line_pass_newlines : forall t, count_nl (re_sub line_comment [] t) = count_nl t.
Proof.
  intros t. unfold re_sub. rewrite (sub_scan_cut line_len _ _ match_at_line).
  exact (line_pass_newlines_aux (length t) t (le_n _)).
Qed.

Lemma occurs_tail : forall p c t, occurs p (c :: t) = false -> occurs p t = false.
Proof.
  intros p c t H. simpl in H. apply orb_false_elim in H. apply H.
Qed.

Lemma occurs_head : forall p t, occurs p t = false -> starts_with p t = false.
Proof.
  intros p t H. destruct t; simpl in H; apply orb_false_elim in H; apply H.
Qed.

Lemma occurs_skipn : forall p n t, occurs p t = false -> occurs p (skipn n t) = false.
Proof.
  induction n as [|n IH]; intros t H; [exact H|].
  destruct t as [|c tl]; [exact H|]. simpl. apply IH. exact (occurs_tail _ _ _ H).
Qed.

Lemma occurs_cons : forall p c t,
  starts_with p (c :: t) = false -> occurs p t = false -> occurs p (c :: t) = false.
Proof.
  intros p c t H1 H2. cbn [occurs]. rewrite H1, H2. reflexivity.
Qed.

Lemma no_open_no_block : forall t,
  occurs (lit "/*") t = false -> found_in block_len t = false.
Proof.
  induction t as [|c tl IH]; intros H; [reflexivity|].
  apply found_in_cons; [|apply IH; exact (occurs_tail _ _ _ H)].
  apply occurs_head in H. unfold block_len. rewrite H. reflexivity.
Qed.

Lemma line_pass_no_open_aux : forall n t, length t <= n ->
  occurs (lit "/*") t = false -> occurs (lit "/*") (cut line_len t 0) = false.
Proof.
  induction n as [|n IH]; intros t Hn Ho.
  - destruct t; [reflexivity|simpl in Hn; lia].
  - destruct t as [|c tl]; [reflexivity|]. simpl in Hn.
    pose proof (occurs_tail _ _ _ Ho) as Ho'.
    rewrite cut_step. destruct (line_len (c :: tl)) as [[|m]|] eqn:E.
    + exfalso. exact (line_len_pos _ E).
    + apply IH; [rewrite length_skipn; lia|]. apply occurs_skipn, Ho'.
    + apply occurs_cons; [|apply IH; [lia|exact Ho']].
      apply occurs_head in Ho.
      destruct (is_char "/" c) eqn:Hc; [|cbn; rewrite Hc; reflexivity].
      destruct tl as [|d tl']; [cbn; apply andb_false_r|].
      pose proof (line_len_none _ _ _ E Hc) as Hd.
      rewrite cut_step, (line_len_not_slash _ _ Hd).
      cbn in Ho |- *. rewrite Hc in Ho |- *. exact Ho.
Qed.

(** A text without [/*] has no block comment after the first pass. *)
Lemma line_pass_no_open : forall t,
  occurs (lit "/*") t = false -> found_in block_len (cut line_len t 0) = false.
Proof.
  intros t H. apply no_open_no_block.
  exact (line_pass_no_open_aux (length t) t (le_n _) H).
Qed.

(** C3, as the code has it: a block comment goes with the newlines inside
    it.  On the text [a/*], newline, [*/b] the result is [ab]: the newline of
    the input is not preserved. *)
Lemma strip_comments_drops_newline :
  strip_comments (lit "a/*" ++ [nl] ++ lit "*/b") = lit "ab"
  /\ count_nl (lit "a/*" ++ [nl] ++ lit "*/b") = 1
  /\ count_nl (strip_comments (lit "a/*" ++ [nl] ++ lit "*/b")) = 0.
Proof. vm_compute. repeat split. Qed.

(** *** Comments taken from the left *)

Lemma separate_skipn : forall n t, separate t n = separate (skipn n t) 0.
Proof.
  induction n as [|n IH]; intros t; [reflexivity|].
  destruct t as [|c tl]; [reflexivity|]. simpl. apply IH.
Qed.

Lemma block_newlines_skipn : forall n t,
  block_newlines t n = block_newlines (skipn n t) 0.
Proof.
  induction n as [|n IH]; intros t; [reflexivity|].
  destruct t as [|c tl]; [reflexivity|]. simpl. apply IH.
Qed.

Lemma starts_with_firstn_ge : forall p n t,
  length p <= n -> starts_with p t = true -> starts_with p (firstn n t) = true.
Proof.
  induction p as [|a p IH]; intros n t Hn H; [reflexivity|].
  destruct t as [|c t]; [discriminate|]. destruct n as [|n]; [simpl in Hn; lia|].
  simpl in *. apply andb_prop in H. destruct H as [H1 H2].
  rewrite H1. simpl. apply IH; [lia|exact H2].
Qed.

Lemma cut_line_prefix : forall k t,
  k <= length t -> occurs (lit "//") (firstn (S k) t) = false ->
  cut line_len t 0 = firstn k t ++ cut line_len (skipn k t) 0.
Proof.
  induction k as [|k IH]; intros t Hk Ho; [reflexivity|].
  destruct t as [|c tl]; [simpl in Hk; lia|]. simpl in Hk.
  assert (line_len (c :: tl) = None) as E.
  { unfold line_len. destruct (starts_with (lit "//") (c :: tl)) eqn:E; [|reflexivity].
    apply occurs_head in Ho.
    rewrite (starts_with_firstn_ge (lit "//") (S (S k)) (c :: tl)) in Ho;
      [discriminate|simpl; lia|exact E]. }
  rewrite cut_step, E. cbn [firstn skipn app]. f_equal.
  apply IH; [lia|].
  change (firstn (S (S k)) (c :: tl)) with (c :: firstn (S k) tl) in Ho.
  exact (occurs_tail _ _ _ Ho).
Qed.

Lemma close_dist_prefix : forall t k x,
  close_dist t = Some k -> close_dist (firstn (2 + k) t ++ x) = Some k.
Proof.
  induction t as [|a t IH]; intros k x H; [discriminate|].
  cbn [close_dist] in H.
  destruct (starts_with (lit "*/") (a :: t)) eqn:E.
  - injection H as <-.
    destruct t as [|d t']; [cbn in E; rewrite andb_false_r in E; discriminate|].
    cbn [Nat.add firstn app close_dist].
    assert (starts_with (lit "*/") (a :: d :: x) = true) as ->; [|reflexivity].
    cbn in E |- *. exact E.
  - destruct (close_dist t) as [k'|] eqn:Ek; [|discriminate].
    injection H as <-.
    change (firstn (2 + S k') (a :: t)) with (a :: firstn (2 + k') t).
    cbn [app close_dist].
    assert (starts_with (lit "*/") (a :: firstn (2 + k') t ++ x) = false) as ->.
    { destruct t as [|d t']; [discriminate|].
      cbn in E |- *. exact E. }
    rewrite (IH _ _ eq_refl). reflexivity.
Qed.

Lemma block_len_le : forall t n, block_len t = Some n -> n <= length t.
Proof.
  intros t n H. unfold block_len in H.
  destruct (starts_with (lit "/*") t) eqn:E; [|discriminate].
  apply starts_with_length in E. change (length (lit "/*")) with 2 in E.
  destruct (close_dist (skipn 2 t)) as [k|] eqn:C; [|discriminate].
  injection H as <-. apply close_dist_le in C. rewrite length_skipn in C. lia.
Qed.

Lemma block_len_prefix : forall t n x,
  block_len t = Some n -> block_len (firstn n t ++ x) = Some n.
Proof.
  intros t n x H. unfold block_len in H.
  destruct (starts_with (lit "/*") t) eqn:E; [|discriminate].
  destruct t as [|c [|d tl]]; try discriminate.
  cbn [skipn] in H.
  destruct (close_dist tl) as [k|] eqn:C; [|discriminate].
  injection H as <-.
  unfold block_len.
  change (firstn (S (S (S (S k)))) (c :: d :: tl) ++ x)
    with (c :: d :: firstn (2 + k) tl ++ x).
  assert (starts_with (lit "/*") (c :: d :: firstn (2 + k) tl ++ x) = true) as ->.
  { cbn in E |- *. exact E. }
  cbn [skipn]. rewrite (close_dist_prefix _ _ x C). reflexivity.
Qed.

Lemma close_dist_skipn_none : forall n t,
  close_dist t = None -> close_dist (skipn n t) = None.
Proof.
  induction n as [|n IH]; intros t H; [exact H|].
  destruct t as [|c tl]; [exact H|]. simpl. apply IH.
  exact (close_dist_cons_none _ _ H).
Qed.

Lemma no_close_after_line_aux : forall n t, length t <= n ->
  close_dist t = None -> close_dist (cut line_len t 0) = None.
Proof.
  induction n as [|n IH]; intros t Hn H.
  - destruct t; [reflexivity|simpl in Hn; lia].
  - destruct t as [|c tl]; [reflexivity|]. simpl in Hn.
    pose proof (close_dist_cons_none _ _ H) as Ht.
    rewrite cut_step. destruct (line_len (c :: tl)) as [[|m]|] eqn:E.
    + exfalso. exact (line_len_pos _ E).
    + apply IH; [rewrite length_skipn; lia|]. apply close_dist_skipn_none, Ht.
    + cbn [close_dist].
      assert (starts_with (lit "*/") (c :: cut line_len tl 0) = false) as ->.
      { cbn [close_dist] in H.
        destruct (starts_with (lit "*/") (c :: tl)) eqn:Es; [discriminate|].
        destruct (is_char "*" c) eqn:Hc; [|cbn; rewrite Hc; reflexivity].
        destruct tl as [|d tl']; [cbn; apply andb_false_r|].
        assert (is_char "/" d = false) as Hd.
        { cbn in Es. rewrite Hc in Es. destruct (is_char "/" d); [discriminate|reflexivity]. }
        rewrite cut_step, (line_len_not_slash _ _ Hd).
        cbn. rewrite Hd. apply andb_false_r. }
      rewrite (IH tl ltac:(lia) Ht). reflexivity.
Qed.

Lemma comment_len_line : forall t n, line_len t = Some n -> comment_len t = Some n.
Proof. intros t n H. unfold comment_len. rewrite H. reflexivity. Qed.

Lemma comment_len_block : forall t,
  (line_len t = None \/ line_len t = Some 0) -> comment_len t = block_len t.
Proof.
  intros t [H|H]; [unfold comment_len; rewrite H; reflexivity|].
  exfalso. exact (line_len_pos _ H).
Qed.

Lemma skipn_firstn_app (A : Type) : forall m (a b : list A),
  m <= length a -> skipn m (firstn m a ++ b) = b.
Proof.
  intros m a b H. rewrite skipn_app, length_firstn, Nat.min_l by exact H.
  rewrite Nat.sub_diag, skipn_all2 by (rewrite length_firstn; lia).
  reflexivity.
Qed.

(** Where no pair of slashes lies in a block comment, the two passes remove
    the comments that a reader finds from the left. *)
Lemma two_passes_aux : forall n t, length t <= n ->
  separate t 0 = true ->
  cut block_len (cut line_len t 0) 0 = cut comment_len t 0.
Proof.
  induction n as [|n IH]; intros t Hn Hs.
  - destruct t; [reflexivity|simpl in Hn; lia].
  - destruct t as [|c tl]; [reflexivity|]. simpl in Hn.
    cbn [separate] in Hs.
    rewrite (cut_step comment_len).
    destruct (line_len (c :: tl)) as [[|m]|] eqn:E.
    + exfalso. exact (line_len_pos _ E).
    + rewrite (comment_len_line _ _ E), cut_step, E.
      apply IH; [rewrite length_skipn; lia|].
      rewrite <- separate_skipn. exact Hs.
    + rewrite (comment_len_block _ (or_introl E)).
      destruct (block_len (c :: tl)) as [[|m]|] eqn:B.
      * exfalso. exact (block_len_pos _ B).
      * apply andb_prop in Hs. destruct Hs as [Ho Hs].
        apply negb_true_iff in Ho.
        pose proof (block_len_le _ _ B) as L. simpl in L.
        rewrite (cut_line_prefix (S m) (c :: tl)) by (simpl; lia || exact Ho).
        cbn [firstn skipn app].
        rewrite cut_step.
        pose proof (block_len_prefix _ _ (cut line_len (skipn m tl) 0) B) as B'.
        cbn [firstn app] in B'. rewrite B'.
        rewrite skipn_firstn_app by lia.
        apply IH; [rewrite length_skipn; lia|].
        rewrite <- separate_skipn. exact Hs.
      * rewrite cut_step, E.
        assert (block_len (c :: cut line_len tl 0) = None) as B'.
        { destruct (is_char "/" c) eqn:Hc; [|apply block_len_not_slash, Hc].
          destruct tl as [|d tl']; [apply block_len_single|].
          pose proof (line_len_none _ _ _ E Hc) as Hd.
          rewrite cut_step, (line_len_not_slash _ _ Hd).
          destruct (is_char "*" d) eqn:Hx; [|apply block_len_second, Hx].
          rewrite (block_len_open _ _ _ Hc Hx) in B.
          rewrite (block_len_open _ _ _ Hc Hx).
          assert (close_dist tl' = None) as Hn'
              by (destruct (close_dist tl'); [discriminate|reflexivity]).
          rewrite (no_close_after_line_aux (length tl') tl' (le_n _) Hn').
          reflexivity. }
        rewrite cut_step, B'. f_equal. apply IH; [lia|exact Hs].
Qed.

Lemma count_nl_app : forall a b, count_nl (a ++ b) = count_nl a + count_nl b.
Proof.
  intros a b. unfold count_nl. rewrite filter_app, length_app. reflexivity.
Qed.

(** The newlines of a text are those left after the comments are removed
    and those inside its block comments. *)
Lemma comment_newlines_aux : forall n t, length t <= n ->
  count_nl (cut comment_len t 0) + block_newlines t 0 = count_nl t.
Proof.
  induction n as [|n IH]; intros t Hn.
  - destruct t; [reflexivity|simpl in Hn; lia].
  - destruct t as [|c tl]; [reflexivity|]. simpl in Hn.
    rewrite cut_step. cbn [block_newlines].
    destruct (line_len (c :: tl)) as [[|m]|] eqn:E.
    + exfalso. exact (line_len_pos _ E).
    + rewrite (comment_len_line _ _ E), block_newlines_skipn.
      rewrite IH by (rewrite length_skipn; lia).
      apply line_len_some in E. destruct E as (tl2 & Ht & Hm).
      injection Ht as -> ->. injection Hm as ->.
      cbn [skipn]. rewrite count_nl_eol, !count_nl_cons. reflexivity.
    + rewrite (comment_len_block _ (or_introl E)).
      destruct (block_len (c :: tl)) as [[|m]|] eqn:B.
      * exfalso. exact (block_len_pos _ B).
      * rewrite block_newlines_skipn.
        pose proof (count_nl_app (firstn (S m) (c :: tl)) (skipn (S m) (c :: tl))) as Hc.
        rewrite firstn_skipn in Hc. cbn [skipn] in Hc.
        pose proof (IH (skipn m tl) ltac:(rewrite length_skipn; lia)) as H. lia.
      * rewrite !count_nl_cons. pose proof (IH tl ltac:(lia)) as H. lia.
Qed.

(** C3 (amended): for every text in which no pair of slashes lies inside a
    block comment or across its end, [strip_comments] returns the text with
    every line comment and every block comment removed and all the rest
    kept; neither comment pattern matches anywhere in the result; and every
    newline of the input is in the result except those inside the block
    comments, which go with them. *)
Theorem strip_comments_removes_comments : forall t,
  separate t 0 = true ->
  strip_comments t = without_comments t
  /\ finditer line_comment (strip_comments t) = []
  /\ finditer block_comment (strip_comments t) = []
  /\ count_nl (strip_comments t) + block_newlines t 0 = count_nl t.
Proof.
  intros t Hs. pose proof (strip_comments_clean t) as [Hl Hb].
  assert (strip_comments t = without_comments t) as E.
  { rewrite strip_comments_cut. exact (two_passes_aux (length t) t (le_n _) Hs). }
  split; [exact E|].
  split; [apply (finditer_nil_iff _ _ match_at_line), Hl|].
  split; [apply (finditer_nil_iff _ _ match_at_block), Hb|].
  rewrite E. exact (comment_newlines_aux (length t) t (le_n _)).
Qed.

Lemma strip_comments_removes_comments_witness :
  separate (lit "a // x /* y" ++ [nl] ++ lit "b /* c" ++ [nl] ++ lit "d */ e") 0 = true
  /\ strip_comments (lit "a // x /* y" ++ [nl] ++ lit "b /* c" ++ [nl] ++ lit "d */ e")
     = lit "a " ++ [nl] ++ lit "b  e"
  /\ block_newlines (lit "a // x /* y" ++ [nl] ++ lit "b /* c" ++ [nl] ++ lit "d */ e") 0
     = 1.
Proof.
  split; [vm_compute; reflexivity|].
  split; [|vm_compute; reflexivity].
  rewrite (proj1 (strip_comments_removes_comments
                    (lit "a // x /* y" ++ [nl] ++ lit "b /* c" ++ [nl] ++ lit "d */ e")
                    ltac:(vm_compute; reflexivity))).
  vm_compute. reflexivity.
Defined.

(** ** The groups of a match *)

Lemma get_cap_nil : forall i, get_cap i [] = None.
Proof. intros [|i]; reflexivity. Qed.

Lemma get_cap_set_cap : forall i v l j,
  get_cap j (set_cap i v l) = if Nat.eqb j i then Some v else get_cap j l.
Proof.
  induction i as [|i IH]; intros v l j.
  - destruct l, j; try reflexivity. cbn. apply get_cap_nil.
  - destruct l as [|x l], j as [|j]; try reflexivity.
    + cbn [set_cap]. unfold get_cap in *. cbn [nth Nat.eqb].
      rewrite IH. destruct (Nat.eqb j i); [reflexivity|]. destruct j; reflexivity.
    + cbn [set_cap]. unfold get_cap in *. cbn [nth Nat.eqb]. apply IH.
Qed.

Lemma passes_refl : forall s, passes s s.
Proof. intros s. split; [auto|lia]. Qed.

Lemma passes_trans : forall a b c, passes a b -> passes b c -> passes a c.
Proof. intros a b c [H1 L1] [H2 L2]. split; [auto|lia]. Qed.

Section StarCalls.
Variable R : Type.
Variable p : ascii -> bool.
Variable k : option ascii -> str -> option R.

Lemma star_greedy_called : forall t pv res,
  star_greedy p k pv t = Some res ->
  exists pv' t', k pv' t' = Some res /\ length t' <= length t.
Proof.
  induction t as [|c tl IH]; intros pv res H; simpl in H.
  - exists pv, []. split; [exact H|lia].
  - destruct (p c).
    + destruct (star_greedy p k (Some c) tl) as [x|] eqn:E.
      * injection H as <-. destruct (IH _ _ E) as (pv' & t' & Hk & L).
        exists pv', t'. split; [exact Hk|simpl; lia].
      * exists pv, (c :: tl). split; [exact H|lia].
    + exists pv, (c :: tl). split; [exact H|lia].
Qed.

Lemma star_lazy_called : forall t pv res,
  star_lazy p k pv t = Some res ->
  exists pv' t', k pv' t' = Some res /\ length t' <= length t.
Proof.
  induction t as [|c tl IH]; intros pv res H; simpl in H.
  - destruct (k pv []) eqn:E; [|discriminate].
    exists pv, []. split; [congruence|lia].
  - destruct (k pv (c :: tl)) eqn:E.
    + exists pv, (c :: tl). split; [congruence|lia].
    + destruct (p c); [|discriminate].
      destruct (IH _ _ H) as (pv' & t' & Hk & L).
      exists pv', t'. split; [exact Hk|simpl; lia].
Qed.
End StarCalls.

(** A successful attempt has called its continuation, at a cursor where
    the groups of [sets r] are set and at least [min_len r] characters
    further on. *)
Lemma rmatch_called : forall r s k res,
  rmatch r s k = Some res ->
  exists s1, k s1 = Some res /\ passes s s1
             /\ (forall i, In i (sets r) -> get_cap i (caps s1) <> None)
             /\ length (rest s1) + min_len r <= length (rest s).
Proof.
  induction r as [|p|a IHa b IHb|a IHa b IHb|a IHa|g p|i a IHa| |];
    intros s k res H; cbn [rmatch] in H; cbn [sets min_len].
  - exists s. split; [exact H|]. split; [apply passes_refl|].
    split; [contradiction|lia].
  - destruct (rest s) as [|c tl] eqn:E; [discriminate|].
    destruct (p c); [|discriminate].
    eexists. split; [exact H|]. cbn [rest caps].
    split; [split; [auto|cbn; rewrite E; simpl; lia]|].
    split; [contradiction|simpl; lia].
  - destruct (IHa _ _ _ H) as (s1 & H1 & P1 & S1 & L1).
    destruct (IHb _ _ _ H1) as (s2 & H2 & P2 & S2 & L2).
    exists s2. split; [exact H2|]. split; [eapply passes_trans; eassumption|].
    split; [|lia].
    intros i Hi. apply in_app_or in Hi. destruct Hi as [Hi|Hi].
    + apply P2, S1, Hi.
    + apply S2, Hi.
  - destruct (rmatch a s k) as [x|] eqn:E.
    + injection H as <-. destruct (IHa _ _ _ E) as (s1 & H1 & P1 & S1 & L1).
      exists s1. split; [exact H1|]. split; [exact P1|]. split; [|lia].
      intros i Hi. apply filter_In in Hi. apply S1, Hi.
    + destruct (IHb _ _ _ H) as (s1 & H1 & P1 & S1 & L1).
      exists s1. split; [exact H1|]. split; [exact P1|]. split; [|lia].
      intros i Hi. apply filter_In in Hi. destruct Hi as [_ Hi].
      apply existsb_exists in Hi. destruct Hi as (j & Hj & Hij).
      apply Nat.eqb_eq in Hij. subst j. apply S1, Hj.
  - destruct (rmatch a s k) as [x|] eqn:E.
    + injection H as <-. destruct (IHa _ _ _ E) as (s1 & H1 & P1 & _ & _).
      exists s1. split; [exact H1|]. split; [exact P1|].
      split; [contradiction|]. destruct P1 as [_ P1]. lia.
    + exists s. split; [exact H|]. split; [apply passes_refl|].
      split; [contradiction|lia].
  - assert (exists pv' t', k (Cursor pv' t' (caps s)) = Some res
                           /\ length t' <= length (rest s)) as (pv' & t' & Hk & L).
    { destruct g.
      - apply (star_greedy_called _ _ _ _ _ _ H).
      - apply (star_lazy_called _ _ _ _ _ _ H). }
    eexists. split; [exact Hk|]. cbn [rest caps].
    split; [split; [auto|exact L]|]. split; [contradiction|lia].
  - destruct (IHa _ _ _ H) as (s1 & H1 & [P1 L1] & S1 & M1).
    eexists. split; [exact H1|].
    split; [split; [|exact L1]|split; [|exact M1]]; cbn [caps rest].
    + intros j Hj. rewrite get_cap_set_cap. destruct (Nat.eqb j i); [discriminate|].
      apply P1, Hj.
    + intros j [Hj|Hj]; rewrite get_cap_set_cap.
      * subst j. rewrite Nat.eqb_refl. discriminate.
      * destruct (Nat.eqb j i); [discriminate|]. apply S1, Hj.
  - destruct (at_boundary s); [|discriminate].
    exists s. split; [exact H|]. split; [apply passes_refl|].
    split; [contradiction|lia].
  - exists s. split; [|split; [apply passes_refl|split; [contradiction|lia]]].
    destruct (rest s) as [|c tl]; [exact H|]. destruct (is_nl c); [exact H|discriminate].
Qed.

Lemma match_at_groups : forall r pv t len cps,
  match_at r pv t = Some (len, cps) ->
  forall i, In i (sets r) -> get_cap i cps <> None.
Proof.
  intros r pv t len cps H i Hi. unfold match_at in H.
  destruct (rmatch (Grp 0 r) (Cursor pv t []) (fun s => Some s)) as [s1|] eqn:E;
    [|discriminate].
  injection H as _ <-.
  destruct (rmatch_called _ _ _ _ E) as (s2 & H2 & _ & S2 & _).
  injection H2 as ->. apply S2. right. exact Hi.
Qed.

Lemma match_at_min_len : forall r pv t len cps,
  match_at r pv t = Some (len, cps) -> min_len r <= len.
Proof.
  intros r pv t len cps H. unfold match_at in H.
  destruct (rmatch (Grp 0 r) (Cursor pv t []) (fun s => Some s)) as [s1|] eqn:E;
    [|discriminate].
  injection H as <- _.
  destruct (rmatch_called _ _ _ _ E) as (s2 & H2 & _ & _ & L).
  injection H2 as ->. cbn [rest min_len] in L. lia.
Qed.

(** No pattern of the program matches the empty text, so the scans never
    meet an empty match. *)
Lemma patterns_take_characters : forall r,
  In r [line_comment; block_comment; port_decl; instance_pattern;
        connection_pattern; module_pattern] ->
  forall pv t len cps, match_at r pv t = Some (len, cps) -> 1 <= len.
Proof.
  intros r Hr pv t len cps H. apply match_at_min_len in H.
  assert (1 <= min_len r); [|lia].
  repeat (destruct Hr as [<-|Hr]; [vm_compute; lia|]). contradiction.
Qed.

Lemma scan_all (G : Type) (f : option ascii -> str -> option (nat * G)) (P : G -> Prop) :
  (forall pv t len g, f pv t = Some (len, g) -> P g) ->
  forall t pv pos skip x, In x (scan f pv pos t skip) -> P (snd x).
Proof.
  intros Hf. induction t as [|c tl IH]; intros pv pos skip x Hx.
  - destruct skip; simpl in Hx; [|contradiction].
    destruct (f pv []) as [[len g]|] eqn:E; [|contradiction].
    destruct Hx as [<-|[]]. exact (Hf _ _ _ _ E).
  - destruct skip; simpl in Hx; [|exact (IH _ _ _ _ Hx)].
    destruct (f pv (c :: tl)) as [[len g]|] eqn:E.
    + destruct Hx as [<-|Hx]; [exact (Hf _ _ _ _ E)|exact (IH _ _ _ _ Hx)].
    + exact (IH _ _ _ _ Hx).
Qed.

(** Every match that [finditer] yields has set the groups of [sets r]. *)
Lemma finditer_groups : forall r t m i,
  In m (finditer r t) -> In i (sets r) -> exists v, group m i = Some v.
Proof.
  intros r t m i Hm Hi. unfold finditer in Hm.
  apply in_map_iff in Hm. destruct Hm as (x & <- & Hx).
  apply (scan_all _ (match_at r) (fun g => get_cap i g <> None)) in Hx.
  - unfold group. cbn [m_groups].
    destruct (get_cap i (snd x)) as [v|]; [exists v; reflexivity|contradiction].
  - intros pv t0 len g H. exact (match_at_groups _ _ _ _ _ H i Hi).
Qed.

(** ** The parsers never raise *)

Lemma for_each_collect (A B : Type) (l : list A)
      (body : list B -> A -> res (list B)) (h : A -> list B) :
  (forall acc x, In x l -> body acc x = ret (acc ++ h x)) ->
  forall acc, for_each l body acc = ret (acc ++ flat_map h l).
Proof.
  induction l as [|x l IH]; intros Hb acc; simpl.
  - rewrite app_nil_r. reflexivity.
  - rewrite (Hb acc x (or_introl eq_refl)). cbn [bind ret].
    rewrite IH by (intros; apply Hb; right; assumption).
    rewrite app_assoc. reflexivity.
Qed.

Lemma split_on_cons : forall sep t, exists h r, split_on sep t = h :: r.
Proof.
  intros sep t. destruct t as [|c tl]; simpl; [eauto|].
  destruct (Ascii.eqb c sep); [eauto|].
  destruct (split_on sep tl); eauto.
Qed.

Lemma index_first_split_on : forall sep t,
  index_first (split_on sep t) = ret (hd [] (split_on sep t)).
Proof.
  intros sep t. destruct (split_on_cons sep t) as (h & r & ->). reflexivity.
Qed.

Lemma parse_ports_from_header_eq : forall raw,
  parse_ports_from_header (Some raw) = ret (header_names raw).
Proof.
  intros raw. unfold parse_ports_from_header, header_names. cbn [method_of bind ret].
  apply (for_each_collect _ _ _ _ _ ) with (acc := @nil str).
  intros acc part _. cbv zeta.
  destruct (split_ws (replace [nl] (lit " ") part)) as [|x l] eqn:E.
  - cbn. rewrite app_nil_r. reflexivity.
  - cbn [nonempty]. unfold index_last.
    destruct (rev (x :: l)) as [|y r] eqn:Er.
    + apply (f_equal (@length str)) in Er. rewrite length_rev in Er. discriminate.
    + reflexivity.
Qed.

Lemma port_decl_sets_names : In 4 (sets port_decl).
Proof. vm_compute. tauto. Qed.

Lemma parse_port_declarations_eq : forall body,
  parse_port_declarations (Some body) = ret (declared_ports body).
Proof.
  intros body. unfold parse_port_declarations, declared_ports. cbn [expect_str bind ret].
  apply (for_each_collect _ _ _ _ _) with (acc := @nil Port).
  intros acc m Hm. cbv zeta.
  destruct (finditer_groups _ _ _ _ Hm port_decl_sets_names) as [names Hn].
  unfold ports_of_declaration. rewrite Hn. cbn [method_of bind ret or_empty].
  apply for_each_collect.
  intros ports fragment _.
  destruct (nonempty (strip fragment)) eqn:E; cbn [negb].
  - unfold clean_port_name.
    destruct (contains_char "=" (strip fragment)).
    + rewrite index_first_split_on. reflexivity.
    + reflexivity.
  - rewrite app_nil_r. reflexivity.
Qed.

Lemma instance_pattern_sets : forall i, In i [1; 2; 3] -> In i (sets instance_pattern).
Proof. vm_compute. tauto. Qed.

Lemma for_each_map (A B : Type) (l : list A) (h : A -> B) :
  forall acc, for_each l (fun acc x => ret (acc ++ [h x])) acc = ret (acc ++ map h l).
Proof.
  intros acc. rewrite (for_each_collect _ _ l _ (fun x => [h x])) by reflexivity.
  rewrite flat_map_concat_map. f_equal. f_equal.
  induction l as [|x l IH]; simpl; [reflexivity|]. rewrite IH. reflexivity.
Qed.

Lemma parse_instances_eq : forall body,
  parse_instances (Some body) = ret (found_instances body).
Proof.
  intros body. unfold parse_instances, found_instances. cbn [expect_str bind ret].
  apply (for_each_collect _ _ _ _ _) with (acc := @nil Instance).
  intros acc m Hm. cbv zeta.
  destruct (finditer_groups _ _ _ 1 Hm (instance_pattern_sets 1 ltac:(simpl; tauto))) as [v1 H1].
  destruct (finditer_groups _ _ _ 2 Hm (instance_pattern_sets 2 ltac:(simpl; tauto))) as [v2 H2].
  destruct (finditer_groups _ _ _ 3 Hm (instance_pattern_sets 3 ltac:(simpl; tauto))) as [v3 H3].
  unfold instance_of, instance_from. rewrite H1, H2, H3.
  destruct (is_keyword (Some v1)); [rewrite app_nil_r; reflexivity|].
  unfold findall2. cbn [expect_str bind ret or_empty].
  rewrite (for_each_map _ _ _ (fun conn : str * str => (fst conn, strip (snd conn)))).
  cbn [bind ret app]. unfold connections_of. rewrite map_map. reflexivity.
Qed.

Lemma module_pattern_sets : forall i, In i [1; g_ports; g_body] -> In i (sets module_pattern).
Proof. vm_compute. tauto. Qed.

Lemma assemble_eq : forall t m,
  In m (finditer module_pattern t) -> assemble m = ret (module_of m).
Proof.
  intros t m Hm. unfold assemble, module_of.
  destruct (finditer_groups _ _ _ 1 Hm (module_pattern_sets 1 ltac:(simpl; tauto))) as [v1 H1].
  destruct (finditer_groups _ _ _ g_ports Hm
              (module_pattern_sets g_ports ltac:(simpl; tauto))) as [v4 H4].
  destruct (finditer_groups _ _ _ g_body Hm
              (module_pattern_sets g_body ltac:(simpl; tauto))) as [v5 H5].
  rewrite H1, H4, H5. cbn [expect_str bind ret or_empty].
  rewrite parse_ports_from_header_eq. cbn [bind ret].
  rewrite parse_port_declarations_eq. cbn [bind ret].
  rewrite parse_instances_eq. cbn [bind ret].
  destruct (declared_ports v5); reflexivity.
Qed.

(** [parse_modules] returns one module for each module boundary, in the
    order of the text. *)
Lemma parse_modules_eq : forall text,
  parse_modules text = ret (map module_of (module_matches text)).
Proof.
  intros text. unfold parse_modules, module_matches. cbv zeta.
  rewrite (for_each_collect _ _ _ _ (fun m => [module_of m])).
  - rewrite flat_map_concat_map. cbn [app]. f_equal.
    induction (finditer module_pattern (strip_comments text)) as [|x l IH];
      simpl; [reflexivity|]. rewrite IH. reflexivity.
  - intros acc m Hm. rewrite (assemble_eq _ _ Hm). reflexivity.
Qed.

(** ** Modules found and not found *)

(** C10: [parse_modules] is total: on every text it returns a list of
    modules, one for each module boundary, and raises nothing; a text
    without a module boundary gives the empty list. *)
Theorem parse_modules_total : forall text,
  exists modules,
    parse_modules text = inr modules
    /\ length modules = length (module_matches text).
Proof.
  intros text. exists (map module_of (module_matches text)).
  split; [apply parse_modules_eq|apply length_map].
Qed.

Example parse_modules_empty_text : parse_modules [] = inr [].
Proof. vm_compute. reflexivity. Qed.

Example parse_modules_open_comment :
  parse_modules (lit "/* module m(a); endmodule") =
  inr [mkModule (lit "m") [] [header_port (lit "a")] []].
Proof. vm_compute. reflexivity. Qed.

Example parse_modules_malformed :
  parse_modules (lit "module (a; endmodule module") = inr [].
Proof. vm_compute. reflexivity. Qed.

(** C1, as the code has it: on the empty text, which has no module
    boundary, [parse_modules] returns a result, the empty list, and does not
    fail. *)
Lemma parse_modules_returns_empty :
  module_matches [] = [] /\ parse_modules [] = inr [].
Proof. vm_compute. split; reflexivity. Qed.

(** C1 (amended): on a text without a module boundary [parse_modules]
    returns the empty list; it is its caller [main] that fails, with
    [ValueError("No modules found in input.")], before the output directory
    is made or anything is written. *)
Theorem main_no_modules :
  forall (world : Type) (mkdir : world -> res unit * world)
         (write_text : str -> world -> res unit * world) content w h,
  module_matches content = [] ->
  parse_modules content = inr []
  /\ main mkdir write_text content w h
     = (inl (ValueError (lit "No modules found in input.")), w).
Proof.
  intros world mkdir write_text content w h H.
  assert (parse_modules content = inr []) as Hp.
  { rewrite parse_modules_eq, H. reflexivity. }
  split; [exact Hp|]. unfold main. rewrite Hp. reflexivity.
Qed.

Lemma main_no_modules_witness :
  module_matches (lit "wire w; // module m(a); endmodule") = []
  /\ parse_modules (lit "wire w; // module m(a); endmodule") = inr []
  /\ main files_mkdir files_write_text
          (lit "wire w; // module m(a); endmodule") (Files false None) []
     = (inl (ValueError (lit "No modules found in input.")), Files false None).
Proof.
  split; [vm_compute; reflexivity|].
  apply (main_no_modules files files_mkdir files_write_text
           (lit "wire w; // module m(a); endmodule") (Files false None) []).
  vm_compute. reflexivity.
Defined.

(** ** The parameter list *)

Lemma replace_from_skipn : forall old new n t,
  replace_from old new t n = replace_from old new (skipn n t) 0.
Proof.
  induction n as [|n IH]; intros t; [reflexivity|].
  destruct t as [|c tl]; [reflexivity|]. simpl. apply IH.
Qed.

Lemma replace_from_absent : forall old new t,
  occurs old t = false -> replace_from old new t 0 = t.
Proof.
  induction t as [|c tl IH]; intros H; [reflexivity|].
  cbn [replace_from]. rewrite (occurs_head _ _ H), IH; [reflexivity|].
  exact (occurs_tail _ _ _ H).
Qed.

Lemma fold_left_snoc_map (A B : Type) (h : A -> B) : forall l acc,
  fold_left (fun cleaned part => cleaned ++ [h part]) l acc = acc ++ map h l.
Proof.
  induction l as [|x l IH]; intros acc; simpl.
  - rewrite app_nil_r. reflexivity.
  - rewrite IH, <- app_assoc. reflexivity.
Qed.

Lemma replace_keyword : forall s,
  occurs keyword (if starts_with keyword s then skipn (length keyword) s else s) = false ->
  replace keyword [] s = if starts_with keyword s then skipn (length keyword) s else s.
Proof.
  intros s H. change (replace keyword [] s) with (replace_from keyword [] s 0).
  destruct (starts_with keyword s) eqn:E.
  - destruct s as [|c tl]; [discriminate|].
    cbn [replace_from]. rewrite E. cbn [app].
    rewrite replace_from_skipn.
    change (skipn (length keyword) (c :: tl)) with (skipn (pred (length keyword)) tl) in *.
    apply replace_from_absent, H.
  - apply replace_from_absent, H.
Qed.

Lemma parse_parameters_map : forall raw,
  parse_parameters (Some raw) =
  map (fun part => strip (replace keyword [] part)) (stripped_parts raw).
Proof.
  intros raw. destruct raw as [|c tl]; [reflexivity|].
  unfold parse_parameters. cbv zeta. rewrite fold_left_snoc_map. reflexivity.
Qed.

(** C2, as the code has it: the text is split on every comma, nested or
    not, so a default expression with a comma inside parentheses is cut in
    two. *)
Lemma parse_parameters_splits_nested_comma :
  parse_parameters (Some (lit "parameter P = f(1,2)")) = [lit "P = f(1"; lit "2)"].
Proof. vm_compute. reflexivity. Qed.

(** C2 (amended): parameter parsing splits the text on every comma (the
    nesting of the commas is not looked at), trims the fragments and drops
    the blank ones: the result has one text for each fragment that is not
    blank, in the order of the text.  For each such fragment in which
    [parameter] occurs as its leading word only, or not at all, the text is
    what follows that leading keyword, trimmed and otherwise unchanged, the
    default expression included.  The parameter section
    [#(parameter WIDTH=8, parameter DEPTH=4)] of a module header, whose text
    between the parentheses is what the parser is given, yields [WIDTH=8]
    and [DEPTH=4]. *)
Theorem parse_parameters_fragments :
  (forall raw,
     length (parse_parameters (Some raw))
     = length (filter (fun f => nonempty (strip f)) (split_on comma raw)))
  /\ (forall raw i fragment,
        nth_error (filter (fun f => nonempty (strip f)) (split_on comma raw)) i
        = Some fragment ->
        leading_keyword_word fragment = true ->
        nth_error (parse_parameters (Some raw)) i = Some (after_keyword fragment))
  /\ parse_parameters (Some (lit "parameter WIDTH=8, parameter DEPTH=4"))
     = [lit "WIDTH=8"; lit "DEPTH=4"]
  /\ option_map (map parameters)
       (match parse_modules
                (lit "module m #(parameter WIDTH=8, parameter DEPTH=4) (a); endmodule")
        with inr ms => Some ms | inl _ => None end)
     = Some [[lit "WIDTH=8"; lit "DEPTH=4"]].
Proof.
  split; [|split; [|split; vm_compute; reflexivity]].
  - intros raw. rewrite parse_parameters_map. unfold stripped_parts.
    rewrite !length_map. reflexivity.
  - intros raw i fragment Hi H. rewrite parse_parameters_map. unfold stripped_parts.
    rewrite map_map, nth_error_map, Hi. cbn [option_map]. f_equal.
    unfold leading_keyword_word in H. cbv zeta in H.
    unfold after_keyword. cbv zeta. rewrite replace_keyword; [reflexivity|].
    destruct (starts_with keyword (strip fragment)).
    + apply andb_prop in H. destruct H as [_ H]. apply negb_true_iff in H. exact H.
    + apply negb_true_iff in H. exact H.
Qed.

Lemma parse_parameters_fragments_witness :
  (nth_error
     (filter (fun f => nonempty (strip f))
        (split_on comma (lit " parameter A = {1}, parameter_b = 2,, C ")))
     0 = Some (lit " parameter A = {1}")
   /\ leading_keyword_word (lit " parameter A = {1}") = true
   /\ nth_error
        (parse_parameters (Some (lit " parameter A = {1}, parameter_b = 2,, C "))) 0
      = Some (lit "A = {1}"))
  /\ (nth_error
        (filter (fun f => nonempty (strip f))
           (split_on comma (lit " parameter A = {1}, parameter_b = 2,, C ")))
        2 = Some (lit " C ")
      /\ leading_keyword_word (lit " C ") = true
      /\ nth_error
           (parse_parameters (Some (lit " parameter A = {1}, parameter_b = 2,, C "))) 2
         = Some (lit "C")).
Proof.
  split; (split; [vm_compute; reflexivity|]); (split; [vm_compute; reflexivity|]).
  - rewrite (proj1 (proj2 parse_parameters_fragments)
               (lit " parameter A = {1}, parameter_b = 2,, C ") 0
               (lit " parameter A = {1}"));
      vm_compute; reflexivity.
  - rewrite (proj1 (proj2 parse_parameters_fragments)
               (lit " parameter A = {1}, parameter_b = 2,, C ") 2 (lit " C "));
      vm_compute; reflexivity.
Defined.

(** ** Ports *)

Lemma flat_map_if (A B : Type) (p : A -> bool) (h : A -> B) : forall l,
  flat_map (fun x => if p x then [h x] else []) l = map h (filter p l).
Proof.
  induction l as [|x l IH]; simpl; [reflexivity|].
  destruct (p x); simpl; rewrite IH; reflexivity.
Qed.

Lemma Forall2_map_in (A B : Type) (R : A -> B -> Prop) (h : A -> B) : forall l,
  (forall x, In x l -> R x (h x)) -> Forall2 R l (map h l).
Proof.
  induction l as [|x l IH]; intros H; simpl; constructor.
  - apply H. left. reflexivity.
  - apply IH. intros y Hy. apply H. right. exact Hy.
Qed.

Lemma nonempty_true (A : Type) : forall l : list A, nonempty l = true <-> l <> [].
Proof. intros [|x l]; simpl; split; congruence. Qed.

(** C5: the declaration [input wire [7:0] a, b;] gives two ports, [a] and
    [b], both [input], [wire], [[7:0]], also as the body of a module.  The
    declaration [input reg_a, b;] names the ports [reg_a] and [b] and gives
    them neither type nor width: here the pattern, which has no word
    boundary after its type group, takes the first three letters of
    [reg_a] for the type, and the ports returned are [_a] and [b], both of
    type [reg]; no port is called [reg_a]. *)
Theorem port_declaration_type_prefix :
  parse_port_declarations (Some (lit "input wire [7:0] a, b;"))
  = inr [mkPort (lit "a") (Some (lit "input")) (Some (lit "wire")) (Some (lit "[7:0]"));
         mkPort (lit "b") (Some (lit "input")) (Some (lit "wire")) (Some (lit "[7:0]"))]
  /\ parse_modules (lit "module m(a, b); input wire [7:0] a, b; endmodule")
     = inr [mkModule (lit "m") []
              [mkPort (lit "a") (Some (lit "input")) (Some (lit "wire")) (Some (lit "[7:0]"));
               mkPort (lit "b") (Some (lit "input")) (Some (lit "wire")) (Some (lit "[7:0]"))]
              []]
  /\ parse_port_declarations (Some (lit "input reg_a, b;"))
     = inr [mkPort (lit "_a") (Some (lit "input")) (Some (lit "reg")) None;
            mkPort (lit "b") (Some (lit "input")) (Some (lit "reg")) None]
  /\ parse_modules (lit "module m(reg_a, b); input reg_a, b; endmodule")
     = inr [mkModule (lit "m") []
              [mkPort (lit "_a") (Some (lit "input")) (Some (lit "reg")) None;
               mkPort (lit "b") (Some (lit "input")) (Some (lit "reg")) None]
              []].
Proof. repeat split; vm_compute; reflexivity. Qed.

Lemma module_groups : forall text m,
  In m (module_matches text) ->
  exists v1 v4 v5,
    group m 1 = Some v1 /\ group m g_ports = Some v4 /\ group m g_body = Some v5.
Proof.
  intros text m Hm. unfold module_matches in Hm.
  destruct (finditer_groups _ _ _ 1 Hm (module_pattern_sets 1 ltac:(simpl; tauto))) as [v1 H1].
  destruct (finditer_groups _ _ _ g_ports Hm
              (module_pattern_sets g_ports ltac:(simpl; tauto))) as [v4 H4].
  destruct (finditer_groups _ _ _ g_body Hm
              (module_pattern_sets g_body ltac:(simpl; tauto))) as [v5 H5].
  exists v1, v4, v5. auto.
Qed.

(** C6: a module with the header ports [clk], [rst], [out] and no port
    declaration in its body gets these three names as ports, in that order,
    without direction, type or width; and for every module boundary of every
    text the ports are the declared ports of the body when there are any,
    the names of the header otherwise. *)
Theorem header_port_fallback :
  parse_modules (lit "module m(clk, rst, out); endmodule")
  = inr [mkModule (lit "m") []
           [mkPort (lit "clk") None None None;
            mkPort (lit "rst") None None None;
            mkPort (lit "out") None None None] []]
  /\ forall text, exists modules,
       parse_modules text = inr modules
       /\ Forall2
            (fun m md =>
               exists declared names,
                 parse_port_declarations (group m g_body) = inr declared
                 /\ parse_ports_from_header (group m g_ports) = inr names
                 /\ ports md = if nonempty declared then declared
                               else map header_port names)
            (module_matches text) modules.
Proof.
  split; [vm_compute; reflexivity|].
  intros text. exists (map module_of (module_matches text)).
  split; [apply parse_modules_eq|].
  apply Forall2_map_in. intros m Hm.
  destruct (module_groups _ _ Hm) as (v1 & v4 & v5 & H1 & H4 & H5).
  exists (declared_ports v5), (header_names v4).
  rewrite H4, H5, parse_port_declarations_eq, parse_ports_from_header_eq.
  split; [reflexivity|]. split; [reflexivity|].
  unfold module_of. cbv zeta. rewrite H4, H5. reflexivity.
Qed.

(** ** Instances *)

Lemma str_eqb_eq : forall a b, str_eqb a b = true <-> a = b.
Proof.
  induction a as [|x a IH]; intros [|y b]; simpl; split; try congruence.
  - intros H. apply andb_prop in H. destruct H as [H1 H2].
    apply Ascii.eqb_eq in H1. apply IH in H2. congruence.
  - intros H. injection H as -> ->. rewrite Ascii.eqb_refl.
    apply IH. reflexivity.
Qed.

Lemma str_in_false : forall x names, str_in x names = false -> ~ In x names.
Proof.
  intros x names H Hin. unfold str_in in H.
  assert (existsb (str_eqb x) names = true) as E.
  { apply existsb_exists. exists x. split; [exact Hin|]. apply str_eqb_eq. reflexivity. }
  congruence.
Qed.

(** C7: the instantiation [adder u1(.a(x), .b(y), .sum(z));] gives one
    instance, of module [adder], named [u1], with the connections [(a,x)],
    [(b,y)], [(sum,z)] in that order, also inside the body of a module; and
    for every body the instances are those of the candidate matches whose
    module type is not a keyword of the denylist: a candidate whose module
    type is one of [if], [for], [case], [always], [assign], [generate],
    [endmodule] gives no instance, and no instance has such a module
    name. *)
Theorem instance_parsing :
  parse_instances (Some (lit "adder u1(.a(x), .b(y), .sum(z));"))
  = inr [mkInstance (lit "adder") (lit "u1")
           [(lit "a", lit "x"); (lit "b", lit "y"); (lit "sum", lit "z")]]
  /\ parse_modules (lit "module top(x, y, z); adder u1(.a(x), .b(y), .sum(z)); endmodule")
     = inr [mkModule (lit "top") []
              [header_port (lit "x"); header_port (lit "y"); header_port (lit "z")]
              [mkInstance (lit "adder") (lit "u1")
                 [(lit "a", lit "x"); (lit "b", lit "y"); (lit "sum", lit "z")]]]
  /\ KEYWORDS = [lit "if"; lit "for"; lit "case"; lit "always"; lit "assign";
                 lit "generate"; lit "endmodule"]
  /\ forall body, exists found,
       parse_instances (Some body) = inr found
       /\ found = map instance_from
                    (filter (fun m => negb (is_keyword (group m 1)))
                            (finditer instance_pattern body))
       /\ Forall (fun i => ~ In (module_name i) KEYWORDS) found.
Proof.
  split; [vm_compute; reflexivity|]. split; [vm_compute; reflexivity|].
  split; [reflexivity|].
  intros body. eexists. split; [apply parse_instances_eq|].
  assert (found_instances body
          = map instance_from
              (filter (fun m => negb (is_keyword (group m 1)))
                      (finditer instance_pattern body))) as E.
  { unfold found_instances. rewrite <- flat_map_if. apply flat_map_ext.
    intros m. unfold instance_of. destruct (is_keyword (group m 1)); reflexivity. }
  split; [exact E|]. rewrite E.
  apply Forall_forall. intros i Hi.
  apply in_map_iff in Hi. destruct Hi as (m & <- & Hm).
  apply filter_In in Hm. destruct Hm as [Hm Hk].
  destruct (finditer_groups _ _ _ 1 Hm (instance_pattern_sets 1 ltac:(simpl; tauto)))
    as [v1 H1].
  unfold instance_from. cbn [module_name]. rewrite H1 in Hk |- *.
  apply negb_true_iff in Hk. exact (str_in_false _ _ Hk).
Qed.

Example keyword_candidates_skipped :
  parse_instances (Some (lit "if u0 (.a(x)); assign y (.b(z)); adder u1(.a(x));"))
  = inr [mkInstance (lit "adder") (lit "u1") [(lit "a", lit "x")]].
Proof. vm_compute. reflexivity. Qed.

(** ** A module with ports declared has ports *)

Lemma drop_while_head : forall p t c tl, drop_while p t = c :: tl -> p c = false.
Proof.
  induction t as [|x t IH]; intros c tl H; simpl in H; [discriminate|].
  destruct (p x) eqn:E; [exact (IH _ _ H)|]. injection H as <- _. exact E.
Qed.

Lemma strip_by_has_kept : forall p t, strip_by p t <> [] ->
  exists c, In c (strip_by p t) /\ p c = false.
Proof.
  intros p t H. unfold strip_by in *.
  destruct (drop_while p (rev (drop_while p t))) as [|c tl] eqn:E; [contradiction|].
  exists c. split; [|exact (drop_while_head _ _ _ _ E)].
  apply in_rev. rewrite rev_involutive. left. reflexivity.
Qed.

Lemma is_nl_space : forall c, is_nl c = true -> is_space c = true.
Proof. intros c H. apply Ascii.eqb_eq in H. subst c. reflexivity. Qed.

Lemma replace_nl_map : forall t,
  replace [nl] (lit " ") t = map (fun c => if is_nl c then " "%char else c) t.
Proof.
  intros t. change (replace [nl] (lit " ") t) with (replace_from [nl] (lit " ") t 0).
  induction t as [|c tl IH]; [reflexivity|].
  cbn [replace_from starts_with map]. rewrite andb_true_r.
  change (is_char nl c) with (is_nl c).
  destruct (is_nl c); cbn [length pred]; rewrite IH; reflexivity.
Qed.

Lemma split_ws_from_nonempty : forall t cur,
  cur <> [] \/ (exists c, In c t /\ is_space c = false) ->
  split_ws_from cur t <> [].
Proof.
  induction t as [|x t IH]; intros cur H; simpl.
  - destruct H as [H|(c & [] & _)]. destruct cur; [contradiction|discriminate].
  - destruct (is_space x) eqn:E.
    + destruct cur as [|y cur]; [|discriminate].
      apply IH. right. destruct H as [H|(c & [Hc|Hc] & Hs)]; [contradiction| |].
      * subst c. congruence.
      * exists c. split; assumption.
    + apply IH. left. discriminate.
Qed.

Lemma header_tokens_nonempty : forall part, strip part <> [] ->
  split_ws (replace [nl] (lit " ") (strip part)) <> [].
Proof.
  intros part H. apply split_ws_from_nonempty. right.
  destruct (strip_by_has_kept _ _ H) as (c & Hc & Hs).
  exists c. rewrite replace_nl_map. split; [|exact Hs].
  apply in_map_iff. exists c. split; [|exact Hc].
  destruct (is_nl c) eqn:E; [|reflexivity].
  apply is_nl_space in E. congruence.
Qed.

Lemma header_names_nonempty : forall raw part,
  In part (split_on comma raw) -> strip part <> [] -> header_names raw <> [].
Proof.
  intros raw part Hin Hs. unfold header_names.
  pose proof (header_tokens_nonempty _ Hs) as Ht.
  destruct (rev (split_ws (replace [nl] (lit " ") (strip part)))) as [|t r] eqn:E.
  { apply (f_equal (@length str)) in E. rewrite length_rev in E.
    destruct (split_ws (replace [nl] (lit " ") (strip part))); [contradiction|discriminate]. }
  assert (In (strip_by (is_char ")") t)
             (flat_map
                (fun part =>
                   match rev (split_ws (replace [nl] (lit " ") part)) with
                   | t :: _ => [strip_by (is_char ")") t]
                   | [] => []
                   end) (stripped_parts raw))) as Hx.
  { apply in_flat_map. exists (strip part). split.
    - unfold stripped_parts. apply in_map. apply filter_In.
      split; [exact Hin|]. apply nonempty_true, Hs.
    - rewrite E. left. reflexivity. }
  intros Hnil. rewrite Hnil in Hx. contradiction.
Qed.

Lemma declared_ports_nonempty : forall body d fragment,
  In d (finditer port_decl body) ->
  In fragment (split_on comma (or_empty (group d 4))) ->
  strip fragment <> [] ->
  declared_ports body <> [].
Proof.
  intros body d fragment Hd Hf Hs.
  assert (In (mkPort (clean_port_name fragment) (group d 1) (group d 2) (group d 3))
             (declared_ports body)) as Hx.
  { unfold declared_ports. apply in_flat_map. exists d. split; [exact Hd|].
    unfold ports_of_declaration. apply in_flat_map. exists fragment.
    split; [exact Hf|].
    apply nonempty_true in Hs. rewrite Hs. left. reflexivity. }
  intros Hnil. rewrite Hnil in Hx. contradiction.
Qed.

Lemma module_of_ports_nonempty : forall m,
  declares_header_port m \/ declares_body_port m -> ports (module_of m) <> [].
Proof.
  intros m H. unfold module_of. cbv zeta. cbn [ports].
  destruct (declared_ports (or_empty (group m g_body))) as [|p ps] eqn:E;
    cbn [nonempty]; [|discriminate].
  destruct H as [(part & Hin & Hs)|(d & fragment & Hd & Hf & Hs)].
  - pose proof (header_names_nonempty _ _ Hin Hs) as Hn.
    destruct (header_names (or_empty (group m g_ports))); [contradiction|discriminate].
  - exfalso. exact (declared_ports_nonempty _ _ _ Hd Hf Hs E).
Qed.

(** C8: for every module boundary of every text, the ports of its module
    are not empty if the header names a port or the body declares one; they
    are empty only if the module declares neither. *)
Theorem ports_nonempty_when_declared : forall text,
  exists modules,
    parse_modules text = inr modules
    /\ Forall2
         (fun m md =>
            (declares_header_port m \/ declares_body_port m -> ports md <> [])
            /\ (ports md = [] -> ~ declares_header_port m /\ ~ declares_body_port m))
         (module_matches text) modules.
Proof.
  intros text. exists (map module_of (module_matches text)).
  split; [apply parse_modules_eq|].
  apply Forall2_map_in. intros m _.
  pose proof (module_of_ports_nonempty m) as H.
  split; [exact H|]. intros E. split; intros D; apply H; auto.
Qed.

Lemma ports_nonempty_when_declared_witness :
  exists m md,
    module_matches (lit "module m(clk); endmodule") = [m]
    /\ parse_modules (lit "module m(clk); endmodule") = inr [md]
    /\ declares_header_port m
    /\ ports md <> [].
Proof.
  exists (Mobj 0 24 [Some (lit "module m(clk); endmodule"); Some (lit "m"); None; None;
                     Some (lit "clk"); Some (lit " ")]).
  exists (mkModule (lit "m") [] [header_port (lit "clk")] []).
  assert (module_matches (lit "module m(clk); endmodule")
          = [Mobj 0 24 [Some (lit "module m(clk); endmodule"); Some (lit "m"); None; None;
                        Some (lit "clk"); Some (lit " ")]]) as Em
      by (vm_compute; reflexivity).
  assert (parse_modules (lit "module m(clk); endmodule")
          = inr [mkModule (lit "m") [] [header_port (lit "clk")] []]) as Ep
      by (vm_compute; reflexivity).
  assert (declares_header_port
            (Mobj 0 24 [Some (lit "module m(clk); endmodule"); Some (lit "m"); None; None;
                        Some (lit "clk"); Some (lit " ")])) as Hd.
  { exists (lit "clk"). split; [vm_compute; tauto|vm_compute; discriminate]. }
  split; [exact Em|]. split; [exact Ep|]. split; [exact Hd|].
  destruct (ports_nonempty_when_declared (lit "module m(clk); endmodule"))
    as (modules & Hp & HF).
  rewrite Ep in Hp. injection Hp as <-. rewrite Em in HF.
  inversion HF as [|m md l l' [H _] _]; subst.
  apply H. left. exact Hd.
Defined.

Example module_without_ports :
  parse_modules (lit "module m(); endmodule") = inr [mkModule (lit "m") [] [] []].
Proof. vm_compute. reflexivity. Qed.

(** ** Rendering *)

Lemma update_at_middle (A : Type) (f : A -> A) : forall (h : list A) x g,
  update_at (length h) f (h ++ x :: g) = h ++ f x :: g.
Proof.
  induction h as [|y h IH]; intros x g; simpl; [reflexivity|].
  rewrite IH. reflexivity.
Qed.

Section Appending.
Variable r : nat.

Lemma appends_append : forall x, appends r (append r x) [x].
Proof.
  intros x h L g <-. exists g. unfold append.
  rewrite update_at_middle. reflexivity.
Qed.

Lemma appends_ret : appends r (mret tt) [].
Proof. intros h L g _. exists g. unfold mret. rewrite app_nil_r. reflexivity. Qed.

Lemma appends_seq : forall c1 c2 g1 g2,
  appends r c1 g1 -> appends r c2 g2 ->
  appends r (_ <~ c1 ;; c2) (g1 ++ g2).
Proof.
  intros c1 c2 g1 g2 H1 H2 h L g Hr. unfold mbind.
  destruct (H1 h L g Hr) as [g' ->].
  destruct (H2 h (L ++ g1) g' Hr) as [g'' ->].
  exists g''. rewrite app_assoc. reflexivity.
Qed.

Lemma appends_call (A : Type) : forall (c : M A) (k : A -> M unit) v gen,
  returns c v -> appends r (k v) gen -> appends r (x <~ c ;; k x) gen.
Proof.
  intros c k v gen Hc Hk h L g Hr. unfold mbind.
  destruct (Hc (h ++ L :: g)) as [junk ->].
  rewrite <- app_assoc, <- app_comm_cons.
  exact (Hk h L (g ++ junk) Hr).
Qed.

Lemma appends_mfor (A : Type) : forall (body : A -> M unit) (gen : A -> list str) l,
  (forall x, appends r (body x) (gen x)) ->
  appends r (mfor l body) (flat_map gen l).
Proof.
  intros body gen l Hb. induction l as [|x l IH]; cbn [mfor flat_map].
  - apply appends_ret.
  - apply appends_seq; [apply Hb|exact IH].
Qed.

Lemma appends_eq : forall c g1 g2, appends r c g1 -> g1 = g2 -> appends r c g2.
Proof. intros c g1 g2 H <-. exact H. Qed.

Lemma finishes_contents : forall F,
  finishes r (l <~ contents r ;; mret (F l)) [] F.
Proof.
  intros F h L g <-. exists g. unfold mbind, contents, mret.
  rewrite nth_middle, app_nil_r. reflexivity.
Qed.

Lemma finishes_seq : forall c1 c2 g1 g2 F,
  appends r c1 g1 -> finishes r c2 g2 F ->
  finishes r (_ <~ c1 ;; c2) (g1 ++ g2) F.
Proof.
  intros c1 c2 g1 g2 F H1 H2 h L g Hr. unfold mbind.
  destruct (H1 h L g Hr) as [g' ->].
  destruct (H2 h (L ++ g1) g' Hr) as [g'' ->].
  exists g''. rewrite app_assoc. reflexivity.
Qed.

Lemma finishes_call (A : Type) : forall (c : M A) (k : A -> M str) v gen F,
  returns c v -> finishes r (k v) gen F -> finishes r (x <~ c ;; k x) gen F.
Proof.
  intros c k v gen F Hc Hk h L g Hr. unfold mbind.
  destruct (Hc (h ++ L :: g)) as [junk ->].
  rewrite <- app_assoc, <- app_comm_cons.
  exact (Hk h L (g ++ junk) Hr).
Qed.
End Appending.

Lemma returns_new : forall init (k : nat -> M str) gen F,
  (forall r, finishes r (k r) gen F) ->
  returns (r <~ new_list init ;; k r) (F (init ++ gen)).
Proof.
  intros init k gen F Hk h. unfold mbind, new_list.
  destruct (Hk (length h) h init [] eq_refl) as [g' ->].
  exists ((init ++ gen) :: g'). reflexivity.
Qed.

Lemma flat_map_singleton (A B : Type) (h : A -> B) : forall l,
  flat_map (fun x => [h x]) l = map h l.
Proof.
  induction l as [|x l IH]; simpl; [reflexivity|]. rewrite IH. reflexivity.
Qed.

Lemma returns_eq (A : Type) : forall (c : M A) v1 v2, returns c v1 -> v1 = v2 -> returns c v2.
Proof. intros c v1 v2 H <-. exact H. Qed.

Lemma format_port_table_returns : forall ports,
  returns (format_port_table ports) (table_text ports).
Proof.
  intros ports. unfold format_port_table.
  eapply returns_eq.
  - apply returns_new. intros r.
    apply finishes_seq; [|apply finishes_contents].
    apply (appends_mfor r _ _ (fun port => [port_row port])).
    intros port. apply appends_append.
  - unfold table_text, table_rows.
    rewrite app_nil_r, flat_map_singleton. reflexivity.
Qed.

Lemma make_mermaid_returns : forall modules,
  returns (make_mermaid modules) (mermaid_text modules).
Proof.
  intros modules. unfold make_mermaid.
  eapply returns_eq.
  - apply returns_new. intros r.
    apply finishes_seq; [|apply finishes_contents].
    apply (appends_mfor r _ _ mermaid_module_lines).
    intros module. cbv zeta. unfold mermaid_module_lines.
    eapply appends_eq.
    + apply appends_seq; [apply appends_append|].
      apply appends_seq; [apply appends_append|].
      apply appends_seq; [|apply appends_append].
      apply (appends_mfor r _ _ (instance_node_lines module)).
      intros ii. unfold instance_node_lines. cbv zeta.
      eapply appends_eq.
      * apply appends_seq; apply appends_append.
      * reflexivity.
    + reflexivity.
  - unfold mermaid_text. rewrite app_nil_r. reflexivity.
Qed.

Lemma section_appends : forall r module,
  appends r
    (_ <~ append r [] ;;
     _ <~ append r (lit "### " ++ name module) ;;
     _ <~ (if nonempty (parameters module)
           then _ <~ append r [] ;;
                _ <~ append r (lit "**Parameters**") ;;
                mfor (parameters module) (fun param => append r (lit "- " ++ param))
           else mret tt) ;;
     _ <~ append r [] ;;
     _ <~ append r (lit "**Ports**") ;;
     table <~ format_port_table (ports module) ;;
     _ <~ append r table ;;
     _ <~ append r [] ;;
     _ <~ append r (lit "**Instances**") ;;
     if nonempty (instances module)
     then mfor (instances module)
            (fun instance =>
               _ <~ append r
                      (lit "- `" ++ module_name instance ++ lit "` `"
                       ++ instance_name instance ++ lit "`") ;;
               if nonempty (connections instance)
               then mfor (connections instance)
                      (fun c => append r
                                  (lit "  - ." ++ fst c ++ lit "(" ++ snd c ++ lit ")"))
               else mret tt)
     else append r (lit "- None"))
    (section_lines module).
Proof.
  intros r module. unfold section_lines.
  eapply appends_eq.
  - apply appends_seq; [apply appends_append|].
    apply appends_seq; [apply appends_append|].
    apply appends_seq.
    { instantiate (1 := if nonempty (parameters module)
                        then [[]; lit "**Parameters**"]
                             ++ map (fun param => lit "- " ++ param) (parameters module)
                        else []).
      destruct (nonempty (parameters module)); [|apply appends_ret].
      eapply appends_eq.
      - apply appends_seq; [apply appends_append|].
        apply appends_seq; [apply appends_append|].
        apply (appends_mfor r _ _ (fun param => [lit "- " ++ param])).
        intros param. apply appends_append.
      - rewrite flat_map_singleton. reflexivity. }
    apply appends_seq; [apply appends_append|].
    apply appends_seq; [apply appends_append|].
    eapply appends_call; [apply format_port_table_returns|].
    apply appends_seq; [apply appends_append|].
    apply appends_seq; [apply appends_append|].
    apply appends_seq; [apply appends_append|].
    instantiate (1 := if nonempty (instances module)
                      then flat_map instance_lines (instances module)
                      else [lit "- None"]).
    destruct (nonempty (instances module)); [|apply appends_append].
    apply (appends_mfor r _ _ instance_lines).
    intros instance. unfold instance_lines.
    apply appends_seq; [apply appends_append|].
    destruct (connections instance) as [|c cs] eqn:E; [apply appends_ret|].
    cbn [nonempty]. rewrite <- E.
    eapply appends_eq.
    + apply (appends_mfor r _ _
               (fun c => [lit "  - ." ++ fst c ++ lit "(" ++ snd c ++ lit ")"])).
      intros c0. apply appends_append.
    + apply flat_map_singleton.
  - reflexivity.
Qed.

(** The renderer returns the text that the modules determine, from every
    store. *)
Lemma build_documentation_returns : forall modules,
  returns (build_documentation modules) (document_text modules).
Proof.
  intros modules. unfold build_documentation.
  eapply returns_eq.
  - apply returns_new. intros r.
    apply finishes_seq; [apply appends_append|].
    apply finishes_seq; [apply appends_append|].
    apply finishes_seq; [apply appends_append|].
    eapply finishes_call; [apply make_mermaid_returns|].
    apply finishes_seq; [apply appends_append|].
    apply finishes_seq; [apply appends_append|].
    apply finishes_seq; [apply appends_append|].
    apply finishes_seq; [apply appends_append|].
    apply finishes_seq; [|apply finishes_contents].
    apply (appends_mfor r _ _ section_lines).
    intros module. apply section_appends.
  - unfold document_text. rewrite app_nil_r. reflexivity.
Qed.

(** C9: rendering is deterministic: the text that [build_documentation]
    returns for a list of modules is the same whatever the store it is
    called in, so two calls on the same modules, the second in the store
    that the first has left, return the same text, character for
    character; that text is [document_text] of the modules. *)
Theorem rendering_deterministic : forall modules h,
  let (text1, h1) := build_documentation modules h in
  let (text2, _) := build_documentation modules h1 in
  text1 = text2 /\ text1 = document_text modules.
Proof.
  intros modules h.
  destruct (build_documentation_returns modules h) as [j1 ->].
  destruct (build_documentation_returns modules (h ++ j1)) as [j2 ->].
  split; reflexivity.
Qed.

(** ** The text of a match and of its groups *)

Section StarSpans.
Variable R : Type.
Variable p : ascii -> bool.
Variable k : option ascii -> str -> option R.

Lemma star_greedy_spans : forall t pv res,
  star_greedy p k pv t = Some res ->
  exists pv' w t', k pv' t' = Some res /\ t = w ++ t' /\ forallb p w = true.
Proof.
  induction t as [|c tl IH]; intros pv res H; simpl in H.
  - exists pv, [], []. auto.
  - destruct (p c) eqn:Ec.
    + destruct (star_greedy p k (Some c) tl) as [x|] eqn:E.
      * injection H as <-. destruct (IH _ _ E) as (pv' & w & t' & Hk & -> & Hw).
        exists pv', (c :: w), t'. simpl. rewrite Ec, Hw. auto.
      * exists pv, [], (c :: tl). auto.
    + exists pv, [], (c :: tl). auto.
Qed.

Lemma star_lazy_spans : forall t pv res,
  star_lazy p k pv t = Some res ->
  exists pv' w t', k pv' t' = Some res /\ t = w ++ t' /\ forallb p w = true.
Proof.
  induction t as [|c tl IH]; intros pv res H; simpl in H.
  - destruct (k pv []) eqn:E; [|discriminate].
    exists pv, [], []. split; [congruence|auto].
  - destruct (k pv (c :: tl)) eqn:E.
    + exists pv, [], (c :: tl). split; [congruence|auto].
    + destruct (p c) eqn:Ec; [|discriminate].
      destruct (IH _ _ H) as (pv' & w & t' & Hk & -> & Hw).
      exists pv', (c :: w), t'. simpl. rewrite Ec, Hw. auto.
Qed.
End StarSpans.

Lemma consumed_app : forall s s1 w, rest s = w ++ rest s1 -> consumed s s1 = w.
Proof.
  intros s s1 w H. unfold consumed. rewrite H, length_app.
  replace (length w + length (rest s1) - length (rest s1)) with (length w + 0) by lia.
  rewrite firstn_app_2. simpl. apply app_nil_r.
Qed.

Lemma caps_hold_set : forall Q i v cps,
  caps_hold Q cps -> Q i v -> caps_hold Q (set_cap i v cps).
Proof.
  intros Q i v cps H Hv j u Hj. rewrite get_cap_set_cap in Hj.
  destruct (Nat.eqb j i) eqn:E.
  - apply Nat.eqb_eq in E. subst j. injection Hj as <-. exact Hv.
  - exact (H _ _ Hj).
Qed.

(** A successful attempt has taken a text that the pattern spans, and its
    groups hold texts that their own patterns span. *)
Lemma rmatch_spans (Q : nat -> str -> Prop) : forall r,
  respects Q r ->
  forall s k res,
    caps_hold Q (caps s) ->
    rmatch r s k = Some res ->
    exists s1 w, k s1 = Some res /\ rest s = w ++ rest s1
                 /\ spans r w /\ caps_hold Q (caps s1).
Proof.
  induction r as [|p|a IHa b IHb|a IHa b IHb|a IHa|g p|i a IHa| |];
    intros HQ s k res Hc H; cbn [rmatch] in H; cbn [spans]; cbn [respects] in HQ.
  - exists s, []. auto.
  - destruct (rest s) as [|c tl] eqn:E; [discriminate|].
    destruct (p c) eqn:Ec; [|discriminate].
    eexists. exists [c]. split; [exact H|]. cbn [rest caps]. eauto 6.
  - destruct HQ as [Qa Qb].
    destruct (IHa Qa _ _ _ Hc H) as (s1 & u & H1 & E1 & Su & C1).
    destruct (IHb Qb _ _ _ C1 H1) as (s2 & v & H2 & E2 & Sv & C2).
    exists s2, (u ++ v). split; [exact H2|].
    split; [rewrite E1, E2; apply app_assoc|]. split; [eauto|exact C2].
  - destruct HQ as [Qa Qb]. destruct (rmatch a s k) as [x|] eqn:E.
    + injection H as <-.
      destruct (IHa Qa _ _ _ Hc E) as (s1 & w & H1 & E1 & Sw & C1).
      exists s1, w. auto.
    + destruct (IHb Qb _ _ _ Hc H) as (s1 & w & H1 & E1 & Sw & C1).
      exists s1, w. auto.
  - destruct (rmatch a s k) as [x|] eqn:E.
    + injection H as <-.
      destruct (IHa HQ _ _ _ Hc E) as (s1 & w & H1 & E1 & Sw & C1).
      exists s1, w. auto.
    + exists s, []. auto.
  - assert (exists pv' w t', k (Cursor pv' t' (caps s)) = Some res
                             /\ rest s = w ++ t' /\ forallb p w = true)
      as (pv' & w & t' & Hk & E & Hw).
    { destruct g.
      - apply (star_greedy_spans _ _ _ _ _ _ H).
      - apply (star_lazy_spans _ _ _ _ _ _ H). }
    eexists. exists w. split; [exact Hk|]. cbn [rest caps]. auto.
  - destruct HQ as [Qa Qi].
    destruct (IHa Qa _ _ _ Hc H) as (s1 & w & H1 & E1 & Sw & C1).
    eexists. exists w. split; [exact H1|]. cbn [rest caps].
    split; [exact E1|]. split; [exact Sw|].
    apply caps_hold_set; [exact C1|].
    rewrite (consumed_app _ _ _ E1). apply Qi, Sw.
  - destruct (at_boundary s); [|discriminate]. exists s, []. auto.
  - exists s, []. split; [|auto].
    destruct (rest s) as [|c tl]; [exact H|]. destruct (is_nl c); [exact H|discriminate].
Qed.

Lemma caps_hold_nil : forall Q, caps_hold Q [].
Proof. intros Q i v H. rewrite get_cap_nil in H. discriminate. Qed.

(** One attempt: the length is that of a text the pattern spans, which
    starts the text and is group 0, and the groups hold what [Q] says. *)
Lemma match_at_spans (Q : nat -> str -> Prop) : forall r pv t len cps,
  respects Q r -> (forall w, Q 0 w) ->
  match_at r pv t = Some (len, cps) ->
  caps_hold Q cps
  /\ exists w t', t = w ++ t' /\ len = length w /\ spans r w
                  /\ get_cap 0 cps = Some w.
Proof.
  intros r pv t len cps HQ H0 H. unfold match_at in H.
  destruct (rmatch (Grp 0 r) (Cursor pv t []) (fun s => Some s)) as [s1|] eqn:E;
    [|discriminate].
  injection H as <- <-.
  cbn [rmatch] in E.
  destruct (rmatch_spans Q r HQ (Cursor pv t []) _ _ (caps_hold_nil Q) E)
    as (s2 & w & H2 & E2 & Sw & C2).
  assert (s1 = Cursor (prev s2) (rest s2)
                 (set_cap 0 (consumed (Cursor pv t []) s2) (caps s2))) as ->
      by congruence.
  cbn [rest caps] in E2 |- *.
  rewrite (consumed_app (Cursor pv t []) s2 w E2).
  split; [apply caps_hold_set; [exact C2|apply H0]|].
  exists w, (rest s2). split; [exact E2|].
  split; [rewrite E2, length_app; lia|]. split; [exact Sw|].
  rewrite get_cap_set_cap. reflexivity.
Qed.

(** The groups of every match that [finditer] yields hold what [Q] says. *)
Lemma finditer_groups_hold (Q : nat -> str -> Prop) : forall r t m i v,
  respects Q r -> (forall w, Q 0 w) ->
  In m (finditer r t) -> group m i = Some v -> Q i v.
Proof.
  intros r t m i v HQ H0 Hm Hv. unfold finditer in Hm.
  apply in_map_iff in Hm. destruct Hm as (x & <- & Hx).
  apply (scan_all _ (match_at r) (caps_hold Q)) in Hx.
  - exact (Hx _ _ Hv).
  - intros pv t0 len g H. exact (proj1 (match_at_spans Q _ _ _ _ _ HQ H0 H)).
Qed.

(** ** What the groups of the program's patterns hold *)

Lemma spans_Lits : forall p w, spans (Lits p) w -> w = p.
Proof.
  induction p as [|a p IH]; intros w H; cbn [Lits spans] in H; [exact H|].
  destruct H as (u & v & -> & (c & -> & Hc) & Hv).
  apply Ascii.eqb_eq in Hc. subst c. rewrite (IH _ Hv). reflexivity.
Qed.

Lemma respects_Lits : forall Q p, respects Q (Lits p).
Proof. intros Q p. induction p as [|a p IH]; cbn; auto. Qed.

Lemma spans_Plus : forall g p w,
  spans (Plus g p) w -> w <> [] /\ forallb p w = true.
Proof.
  intros g p w H. unfold Plus in H. cbn [spans] in H.
  destruct H as (u & v & -> & (c & -> & Hc) & Hv).
  split; [discriminate|]. simpl. rewrite Hc, Hv. reflexivity.
Qed.

Lemma module_pattern_respects : respects module_group_spec module_pattern.
Proof.
  unfold module_pattern, Word. unfold Plus; cbn [respects].
  repeat match goal with |- _ /\ _ => split end;
    try apply respects_Lits; try exact I; try (intros w H; exact I).
  intros w H. exact (spans_Plus true _ _ H).
Qed.

Lemma port_decl_respects : respects port_decl_group_spec port_decl.
Proof.
  unfold port_decl, Word. unfold Plus; cbn [respects].
  repeat match goal with |- _ /\ _ => split end;
    try apply respects_Lits; try exact I; try (intros w H; exact I).
  - intros w H. cbn [spans] in H. cbn [port_decl_group_spec].
    destruct H as [H|[H|H]]; apply spans_Lits in H; subst w; simpl; auto.
  - intros w H. cbn [spans] in H. cbn [port_decl_group_spec].
    destruct H as [H|[H|H]]; apply spans_Lits in H; subst w; simpl; auto.
  - intros w H. cbn [spans] in H. cbn [port_decl_group_spec].
    destruct H as (u & v & -> & (c & -> & Hc) & (x & y & -> & Hx & (d & -> & Hd))).
    apply Ascii.eqb_eq in Hc, Hd. subst c d.
    exists x. split; [reflexivity|]. exact (spans_Plus true _ _ Hx).
  - intros w H. exact (spans_Plus true _ _ H).
Qed.

Lemma instance_pattern_respects : respects instance_group_spec instance_pattern.
Proof.
  unfold instance_pattern. unfold Plus; cbn [respects].
  repeat match goal with |- _ /\ _ => split end;
    try exact I; try (intros w H; exact I); intros w H; exact (spans_Plus true _ _ H).
Qed.

Lemma connection_pattern_respects : respects connection_group_spec connection_pattern.
Proof.
  unfold connection_pattern. unfold Plus; cbn [respects].
  repeat match goal with |- _ /\ _ => split end;
    try exact I; try (intros w H; exact I); intros w H; exact (spans_Plus true _ _ H).
Qed.

(** ** Splitting, trimming and replacing *)

Lemma split_on_lacks : forall sep t f, In f (split_on sep t) -> lacks sep f.
Proof.
  intros sep. induction t as [|c tl IH]; intros f Hf; simpl in Hf.
  - destruct Hf as [<-|[]]. intros [].
  - destruct (Ascii.eqb c sep) eqn:E.
    + destruct Hf as [<-|Hf]; [intros []|exact (IH _ Hf)].
    + destruct (split_on_cons sep tl) as (h & r & Hs). rewrite Hs in Hf, IH.
      destruct Hf as [<-|Hf].
      * intros [->|Hin]; [rewrite Ascii.eqb_refl in E; discriminate|].
        exact (IH h (or_introl eq_refl) Hin).
      * apply IH. right. exact Hf.
Qed.

Lemma split_on_chars : forall sep t f c, In f (split_on sep t) -> In c f -> In c t.
Proof.
  intros sep. induction t as [|x tl IH]; intros f c Hf Hc; simpl in Hf.
  - destruct Hf as [<-|[]]. exact Hc.
  - destruct (Ascii.eqb x sep).
    + destruct Hf as [<-|Hf]; [destruct Hc|right; exact (IH _ _ Hf Hc)].
    + destruct (split_on_cons sep tl) as (h & r & Hs). rewrite Hs in Hf, IH.
      destruct Hf as [<-|Hf].
      * destruct Hc as [->|Hc]; [left; reflexivity|].
        right. exact (IH h c (or_introl eq_refl) Hc).
      * right. apply (IH f c); [right; exact Hf|exact Hc].
Qed.

Lemma drop_while_suffix : forall p t, exists pre, t = pre ++ drop_while p t.
Proof.
  intros p. induction t as [|c tl IH]; simpl.
  - exists []. reflexivity.
  - destruct (p c).
    + destruct IH as [pre IH]. exists (c :: pre). simpl. rewrite <- IH. reflexivity.
    + exists []. reflexivity.
Qed.

Lemma drop_while_incl : forall p t c, In c (drop_while p t) -> In c t.
Proof.
  intros p t c H. destruct (drop_while_suffix p t) as [pre E].
  rewrite E. apply in_or_app. right. exact H.
Qed.

Lemma strip_by_incl : forall p t c, In c (strip_by p t) -> In c t.
Proof.
  intros p t c H. unfold strip_by in H.
  apply in_rev in H. apply drop_while_incl in H.
  apply in_rev in H. exact (drop_while_incl _ _ _ H).
Qed.

Lemma strip_by_lacks : forall p t c, lacks c t -> lacks c (strip_by p t).
Proof. intros p t c H Hin. exact (H (strip_by_incl _ _ _ Hin)). Qed.

Lemma strip_by_trimmed : forall p t, trimmed_by p (strip_by p t).
Proof.
  intros p t. unfold strip_by.
  set (a := drop_while p t).
  set (b := drop_while p (rev a)).
  split.
  - intros c tl E.
    destruct b as [|x b'] eqn:Eb; [discriminate|].
    destruct (drop_while_suffix p (rev a)) as [pre Hpre]. fold b in Hpre.
    rewrite Eb in Hpre.
    assert (a = rev (x :: b') ++ rev pre) as Ha.
    { rewrite <- rev_app_distr, <- Hpre, rev_involutive. reflexivity. }
    rewrite E in Ha. simpl in Ha.
    unfold a in Ha. exact (drop_while_head _ _ _ _ Ha).
  - intros c tl E. rewrite rev_involutive in E.
    exact (drop_while_head _ _ _ _ E).
Qed.

Lemma in_split_ws_from : forall t cur tok,
  (forall c, In c cur -> is_space c = false) ->
  In tok (split_ws_from cur t) ->
  tok <> [] /\ (forall c, In c tok -> is_space c = false)
  /\ (forall c, In c tok -> In c cur \/ In c t).
Proof.
  induction t as [|x t IH]; intros cur tok Hcur H; simpl in H.
  - destruct cur as [|y cur]; [contradiction|]. destruct H as [<-|[]].
    split; [|split].
    + intros E. apply (f_equal (@length ascii)) in E.
      rewrite length_rev in E. discriminate.
    + intros c Hc. apply Hcur. apply in_rev. exact Hc.
    + intros c Hc. left. apply in_rev. exact Hc.
  - destruct (is_space x) eqn:Ex.
    + destruct cur as [|y cur].
      * destruct (IH [] tok ltac:(intros c []) H) as (H1 & H2 & H3).
        split; [exact H1|]. split; [exact H2|].
        intros c Hc. right. right. destruct (H3 c Hc) as [[]|Ht]. exact Ht.
      * destruct H as [<-|H].
        -- split; [|split].
           ++ intros E. apply (f_equal (@length ascii)) in E.
              rewrite length_rev in E. discriminate.
           ++ intros c Hc. apply Hcur. apply in_rev. exact Hc.
           ++ intros c Hc. left. apply in_rev. exact Hc.
        -- destruct (IH [] tok ltac:(intros c []) H) as (H1 & H2 & H3).
           split; [exact H1|]. split; [exact H2|].
           intros c Hc. right. right. destruct (H3 c Hc) as [[]|Ht]. exact Ht.
    + assert (forall c, In c (x :: cur) -> is_space c = false) as Hcur'.
      { intros c [<-|Hc]; [exact Ex|exact (Hcur c Hc)]. }
      destruct (IH _ tok Hcur' H) as (H1 & H2 & H3).
      split; [exact H1|]. split; [exact H2|].
      intros c Hc. destruct (H3 c Hc) as [[<-|Hc']|Ht].
      * right. left. reflexivity.
      * left. exact Hc'.
      * right. right. exact Ht.
Qed.

(** A token of [t.split()] is not empty, has no white space and is made of
    characters of [t]. *)
Lemma in_split_ws : forall t tok, In tok (split_ws t) ->
  tok <> [] /\ (forall c, In c tok -> is_space c = false)
  /\ (forall c, In c tok -> In c t).
Proof.
  intros t tok H. destruct (in_split_ws_from t [] tok ltac:(intros c []) H)
    as (H1 & H2 & H3).
  split; [exact H1|]. split; [exact H2|].
  intros c Hc. destruct (H3 c Hc) as [[]|Ht]. exact Ht.
Qed.

Lemma replace_from_empty_incl : forall old t n c,
  In c (replace_from old [] t n) -> In c t.
Proof.
  intros old. induction t as [|x t IH]; intros n c H; simpl in H; [contradiction|].
  destruct n as [|n].
  - destruct (starts_with old (x :: t)).
    + right. exact (IH _ _ H).
    + destruct H as [<-|H]; [left; reflexivity|right; exact (IH _ _ H)].
  - right. exact (IH _ _ H).
Qed.

Lemma replace_empty_incl : forall old t c, In c (replace old [] t) -> In c t.
Proof.
  intros old t c H. destruct old as [|a old].
  - unfold replace in H. cbn [app] in H.
    induction t as [|x t IH]; simpl in H; [contradiction|].
    destruct H as [<-|H]; [left; reflexivity|right; exact (IH H)].
  - exact (replace_from_empty_incl _ _ _ _ H).
Qed.

Lemma join_split_on : forall sep t, join [sep] (split_on sep t) = t.
Proof.
  intros sep. induction t as [|c tl IH]; [reflexivity|].
  simpl split_on. destruct (Ascii.eqb c sep) eqn:E.
  - apply Ascii.eqb_eq in E. subst c.
    destruct (split_on_cons sep tl) as (h & r & Hs). rewrite Hs in IH |- *.
    change (join [sep] ([] :: h :: r)) with ([] ++ [sep] ++ join [sep] (h :: r)).
    rewrite IH. reflexivity.
  - destruct (split_on_cons sep tl) as (h & r & Hs). rewrite Hs in IH |- *.
    destruct r as [|h2 r].
    + cbn [join] in IH |- *. rewrite IH. reflexivity.
    + change (join [sep] ((c :: h) :: h2 :: r))
        with (c :: (h ++ [sep] ++ join [sep] (h2 :: r))).
      change (join [sep] (h :: h2 :: r))
        with (h ++ [sep] ++ join [sep] (h2 :: r)) in IH.
      rewrite IH. reflexivity.
Qed.

(** ** What the parsers put in their records *)

Lemma forallb_not_lacks : forall c w,
  forallb (not_of (is_char c)) w = true -> lacks c w.
Proof.
  intros c w H Hin. rewrite forallb_forall in H. specialize (H c Hin).
  unfold not_of, is_char in H. rewrite Ascii.eqb_refl in H. discriminate.
Qed.

Lemma contains_char_false : forall c w, contains_char c w = false -> lacks c w.
Proof.
  intros c w H Hin. unfold contains_char in H.
  assert (existsb (is_char c) w = true) as E.
  { apply existsb_exists. exists c. split; [exact Hin|]. apply Ascii.eqb_refl. }
  congruence.
Qed.

Lemma hd_split_on_in : forall sep t, In (hd [] (split_on sep t)) (split_on sep t).
Proof.
  intros sep t. destruct (split_on_cons sep t) as (h & r & ->). left. reflexivity.
Qed.

Lemma in_declared_ports : forall body p,
  In p (declared_ports body) ->
  exists d fragment,
    In d (finditer port_decl body)
    /\ In fragment (split_on comma (or_empty (group d 4)))
    /\ p = mkPort (clean_port_name fragment) (group d 1) (group d 2) (group d 3).
Proof.
  intros body p H. unfold declared_ports in H.
  apply in_flat_map in H. destruct H as (d & Hd & H).
  unfold ports_of_declaration in H.
  apply in_flat_map in H. destruct H as (fragment & Hf & H).
  destruct (nonempty (strip fragment)); [|contradiction].
  destruct H as [<-|[]]. exists d, fragment. auto.
Qed.

Lemma port_decl_group_zero : forall w, port_decl_group_spec 0 w.
Proof. intros w. exact I. Qed.

(** X1: every port that [parse_port_declarations] returns has a direction,
    one of [input], [output], [inout]; its type, when there is one, is
    [reg], [wire] or [logic]; its width, when there is one, is a bracketed
    text that is not empty between the brackets and has no closing bracket
    inside. *)
Theorem declared_port_fields : forall body,
  exists ports,
    parse_port_declarations (Some body) = inr ports
    /\ Forall
         (fun p =>
            (exists d, direction p = Some d
                       /\ In d [lit "input"; lit "output"; lit "inout"])
            /\ (forall ty, data_type p = Some ty ->
                           In ty [lit "reg"; lit "wire"; lit "logic"])
            /\ (forall w, width p = Some w ->
                          exists x, w = [lbracket] ++ x ++ [rbracket]
                                    /\ text_without rbracket x))
         ports.
Proof.
  intros body. exists (declared_ports body).
  split; [apply parse_port_declarations_eq|].
  apply Forall_forall. intros p Hp.
  destruct (in_declared_ports _ _ Hp) as (d & fragment & Hd & _ & ->).
  cbn [direction data_type width].
  pose proof (fun i v => finditer_groups_hold port_decl_group_spec _ _ _ i v
                           port_decl_respects port_decl_group_zero Hd) as HQ.
  split; [|split].
  - assert (In 1 (sets port_decl)) as H1 by (vm_compute; tauto).
    destruct (finditer_groups _ _ _ 1 Hd H1) as [v Hv].
    exists v. split; [exact Hv|]. exact (HQ 1 v Hv).
  - intros ty Hty. exact (HQ 2 ty Hty).
  - intros w Hw. exact (HQ 3 w Hw).
Qed.

Lemma clean_port_name_shape : forall names fragment,
  lacks ";" names ->
  In fragment (split_on comma names) ->
  trimmed (clean_port_name fragment)
  /\ lacks comma (clean_port_name fragment)
  /\ lacks ";" (clean_port_name fragment)
  /\ lacks "=" (clean_port_name fragment).
Proof.
  intros names fragment Hn Hf.
  assert (lacks comma (strip fragment)) as Hc.
  { apply strip_by_lacks. exact (split_on_lacks _ _ _ Hf). }
  assert (lacks ";" (strip fragment)) as Hs.
  { apply strip_by_lacks. intros Hin. exact (Hn (split_on_chars _ _ _ _ Hf Hin)). }
  unfold clean_port_name. cbv zeta.
  destruct (contains_char "=" (strip fragment)) eqn:E.
  - pose proof (hd_split_on_in "=" (strip fragment)) as Hh.
    split; [apply strip_by_trimmed|].
    split; [|split]; apply strip_by_lacks.
    + intros Hin. exact (Hc (split_on_chars _ _ _ _ Hh Hin)).
    + intros Hin. exact (Hs (split_on_chars _ _ _ _ Hh Hin)).
    + exact (split_on_lacks _ _ _ Hh).
  - split; [apply strip_by_trimmed|]. split; [exact Hc|].
    split; [exact Hs|]. exact (contains_char_false _ _ E).
Qed.

(** X2: the name of every port that [parse_port_declarations] returns has
    no white space at its ends and contains no comma, no semicolon and no
    equals sign. *)
Theorem declared_port_names : forall body,
  exists ports,
    parse_port_declarations (Some body) = inr ports
    /\ Forall
         (fun p =>
            trimmed (port_name p) /\ lacks comma (port_name p)
            /\ lacks ";" (port_name p) /\ lacks "=" (port_name p))
         ports.
Proof.
  intros body. exists (declared_ports body).
  split; [apply parse_port_declarations_eq|].
  apply Forall_forall. intros p Hp.
  destruct (in_declared_ports _ _ Hp) as (d & fragment & Hd & Hf & ->).
  cbn [port_name].
  assert (In 4 (sets port_decl)) as H4 by (vm_compute; tauto).
  destruct (finditer_groups _ _ _ 4 Hd H4) as [names Hn].
  rewrite Hn in Hf. cbn [or_empty] in Hf.
  pose proof (finditer_groups_hold port_decl_group_spec _ _ _ _ _
                port_decl_respects port_decl_group_zero Hd Hn) as [_ HQ].
  exact (clean_port_name_shape names fragment (forallb_not_lacks _ _ HQ) Hf).
Qed.

Lemma instance_group_zero : forall w, instance_group_spec 0 w.
Proof. intros w. exact I. Qed.

Lemma connection_group_zero : forall w, connection_group_spec 0 w.
Proof. intros w. exact I. Qed.

Lemma module_group_zero : forall w, module_group_spec 0 w.
Proof. intros w. exact I. Qed.

Lemma connection_pattern_sets : forall i, In i [1; 2] -> In i (sets connection_pattern).
Proof. vm_compute. tauto. Qed.

Lemma connections_of_shape : forall raw c,
  In c (connections_of raw) ->
  word_text (fst c) /\ trimmed (snd c) /\ lacks ")" (snd c).
Proof.
  intros raw c H. unfold connections_of in H.
  apply in_map_iff in H. destruct H as (m & <- & Hm). cbn [fst snd].
  destruct (finditer_groups _ _ _ 1 Hm (connection_pattern_sets 1 ltac:(simpl; tauto)))
    as [v1 H1].
  destruct (finditer_groups _ _ _ 2 Hm (connection_pattern_sets 2 ltac:(simpl; tauto)))
    as [v2 H2].
  rewrite H1, H2. cbn [or_empty].
  pose proof (finditer_groups_hold connection_group_spec _ _ _ _ _
                connection_pattern_respects connection_group_zero Hm H1) as Q1.
  pose proof (finditer_groups_hold connection_group_spec _ _ _ _ _
                connection_pattern_respects connection_group_zero Hm H2) as [_ Q2].
  split; [exact Q1|]. split; [apply strip_by_trimmed|].
  apply strip_by_lacks, forallb_not_lacks, Q2.
Qed.

(** X3: every instance that [parse_instances] returns has a module name and
    an instance name made of one or more word characters; each of its
    connections has a port name of one or more word characters and a signal
    text without white space at its ends and without a closing
    parenthesis. *)
Theorem instance_shape : forall body,
  exists found,
    parse_instances (Some body) = inr found
    /\ Forall
         (fun i =>
            word_text (module_name i) /\ word_text (instance_name i)
            /\ Forall
                 (fun c => word_text (fst c) /\ trimmed (snd c) /\ lacks ")" (snd c))
                 (connections i))
         found.
Proof.
  intros body. exists (found_instances body).
  split; [apply parse_instances_eq|].
  apply Forall_forall. intros i Hi. unfold found_instances in Hi.
  apply in_flat_map in Hi. destruct Hi as (m & Hm & Hi).
  unfold instance_of in Hi. destruct (is_keyword (group m 1)); [contradiction|].
  destruct Hi as [<-|[]]. unfold instance_from.
  cbn [module_name instance_name connections].
  destruct (finditer_groups _ _ _ 1 Hm (instance_pattern_sets 1 ltac:(simpl; tauto)))
    as [v1 H1].
  destruct (finditer_groups _ _ _ 2 Hm (instance_pattern_sets 2 ltac:(simpl; tauto)))
    as [v2 H2].
  rewrite H1, H2. cbn [or_empty].
  split; [|split].
  - exact (finditer_groups_hold instance_group_spec _ _ _ _ _
             instance_pattern_respects instance_group_zero Hm H1).
  - exact (finditer_groups_hold instance_group_spec _ _ _ _ _
             instance_pattern_respects instance_group_zero Hm H2).
  - apply Forall_forall. intros c Hc. exact (connections_of_shape _ _ Hc).
Qed.

(** X4: the name of every module that [parse_modules] returns is made of
    one or more word characters. *)
Theorem module_names_are_words : forall text,
  exists modules,
    parse_modules text = inr modules
    /\ Forall (fun md => word_text (name md)) modules.
Proof.
  intros text. exists (map module_of (module_matches text)).
  split; [apply parse_modules_eq|].
  apply Forall_forall. intros md Hmd.
  apply in_map_iff in Hmd. destruct Hmd as (m & <- & Hm).
  destruct (module_groups _ _ Hm) as (v1 & v4 & v5 & H1 & _ & _).
  unfold module_of. cbv zeta. cbn [name]. rewrite H1. cbn [or_empty].
  exact (finditer_groups_hold module_group_spec _ _ _ _ _
           module_pattern_respects module_group_zero Hm H1).
Qed.

(** X5: the ports of a module are never a mixture: either every port comes
    from a declaration of the body and has a direction, or every port comes
    from the header and has no direction, no type and no width. *)
Theorem module_ports_uniform : forall text,
  exists modules,
    parse_modules text = inr modules
    /\ Forall
         (fun md =>
            Forall (fun p => direction p <> None) (ports md)
            \/ Forall (fun p => direction p = None /\ data_type p = None
                                /\ width p = None) (ports md))
         modules.
Proof.
  intros text. exists (map module_of (module_matches text)).
  split; [apply parse_modules_eq|].
  apply Forall_forall. intros md Hmd.
  apply in_map_iff in Hmd. destruct Hmd as (m & <- & Hm).
  unfold module_of. cbv zeta. cbn [ports].
  destruct (nonempty (declared_ports (or_empty (group m g_body)))).
  - left. apply Forall_forall. intros p Hp.
    destruct (in_declared_ports _ _ Hp) as (d & fragment & Hd & _ & ->).
    cbn [direction].
    assert (In 1 (sets port_decl)) as H1 by (vm_compute; tauto).
    destruct (finditer_groups _ _ _ 1 Hd H1) as [v ->]. discriminate.
  - right. apply Forall_forall. intros p Hp.
    apply in_map_iff in Hp. destruct Hp as (n & <- & _). cbn. auto.
Qed.

(** ** The header *)

Lemma in_stripped_parts : forall raw part,
  In part (stripped_parts raw) ->
  exists x, In x (split_on comma raw) /\ part = strip x /\ strip x <> [].
Proof.
  intros raw part H. unfold stripped_parts in H.
  apply in_map_iff in H. destruct H as (x & <- & Hx).
  apply filter_In in Hx. destruct Hx as [Hx Hn].
  exists x. split; [exact Hx|]. split; [reflexivity|]. apply nonempty_true, Hn.
Qed.

Lemma stripped_parts_length : forall raw,
  length (stripped_parts raw)
  = length (filter (fun part => nonempty (strip part)) (split_on comma raw)).
Proof. intros raw. unfold stripped_parts. apply length_map. Qed.

Lemma stripped_part_lacks_comma : forall raw part,
  In part (stripped_parts raw) -> lacks comma part.
Proof.
  intros raw part H. destruct (in_stripped_parts _ _ H) as (x & Hx & -> & _).
  apply strip_by_lacks. exact (split_on_lacks _ _ _ Hx).
Qed.

Lemma flat_map_length_one (A B : Type) (h : A -> list B) : forall l,
  (forall x, In x l -> length (h x) = 1) -> length (flat_map h l) = length l.
Proof.
  induction l as [|x l IH]; intros H; simpl; [reflexivity|].
  rewrite length_app, (H x (or_introl eq_refl)), IH; [reflexivity|].
  intros y Hy. apply H. right. exact Hy.
Qed.

Lemma header_token_shape : forall part tok,
  lacks comma part ->
  In tok (split_ws (replace [nl] (lit " ") part)) ->
  (forall c, In c tok -> is_space c = false) /\ lacks comma tok.
Proof.
  intros part tok Hp Ht. destruct (in_split_ws _ _ Ht) as (_ & Hs & Hin).
  split; [exact Hs|]. intros Hc. apply Hin in Hc.
  rewrite replace_nl_map in Hc. apply in_map_iff in Hc.
  destruct Hc as (c & Hc & Hcp).
  destruct (is_nl c); [discriminate|]. subst c. exact (Hp Hcp).
Qed.

Lemma Forall2_flat_map_one (A B C : Type) (R : A -> C -> Prop)
    (f : A -> B) (h : B -> list C) : forall l,
  (forall x, In x l -> exists y, h (f x) = [y] /\ R x y) ->
  Forall2 R l (flat_map h (map f l)).
Proof.
  induction l as [|x l IH]; intros H; simpl; [constructor|].
  destruct (H x (or_introl eq_refl)) as (y & -> & Hy).
  constructor; [exact Hy|]. apply IH. intros z Hz. apply H. right. exact Hz.
Qed.

Lemma Forall2_map_r (A B C : Type) (R : A -> C -> Prop) (f : A -> B) (h : B -> C) :
  forall l, (forall x, In x l -> R x (h (f x))) -> Forall2 R l (map h (map f l)).
Proof.
  induction l as [|x l IH]; intros H; simpl; constructor.
  - apply H. left. reflexivity.
  - apply IH. intros y Hy. apply H. right. exact Hy.
Qed.

Lemma subseq_refl : forall t, subseq t t.
Proof. induction t; [constructor|apply subseq_keep; assumption]. Qed.

Lemma subseq_app_r : forall pre t, subseq t (pre ++ t).
Proof.
  induction pre as [|c pre IH]; intros t; [apply subseq_refl|].
  simpl. apply subseq_drop, IH.
Qed.

Lemma subseq_app_l : forall t post, subseq t (t ++ post).
Proof.
  induction t as [|c t IH]; intros post; simpl.
  - induction post; [constructor|apply subseq_drop; assumption].
  - apply subseq_keep, IH.
Qed.

Lemma strip_by_subseq : forall p t, subseq (strip_by p t) t.
Proof.
  intros p t. unfold strip_by.
  destruct (drop_while_suffix p t) as [pre E].
  destruct (drop_while_suffix p (rev (drop_while p t))) as [pre2 E2].
  apply (f_equal (@rev ascii)) in E2. rewrite rev_involutive, rev_app_distr in E2.
  apply subseq_trans with (drop_while p t).
  - rewrite E2 at 2. apply subseq_app_l.
  - rewrite E at 2. apply subseq_app_r.
Qed.

Lemma replace_from_empty_subseq : forall old t n, subseq (replace_from old [] t n) t.
Proof.
  intros old. induction t as [|c tl IH]; intros n; [constructor|].
  cbn [replace_from]. destruct n as [|n]; [|apply subseq_drop, IH].
  destruct (starts_with old (c :: tl)).
  - cbn [app]. apply subseq_drop, IH.
  - apply subseq_keep, IH.
Qed.

Lemma replace_empty_subseq : forall old t, subseq (replace old [] t) t.
Proof.
  intros [|a old] t; [|apply replace_from_empty_subseq].
  unfold replace. cbn [app].
  induction t as [|c t IH]; [constructor|]. simpl. apply subseq_keep, IH.
Qed.

(** X6: [parse_ports_from_header] returns one name for each fragment between
    commas that is not blank, in the order of the text: the name of a
    fragment is its last word, without the closing parentheses at its ends.
    A name has no white space and no comma, and neither starts nor ends
    with a closing parenthesis. *)
Theorem header_names_shape : forall raw,
  exists names,
    parse_ports_from_header (Some raw) = inr names
    /\ length names
       = length (filter (fun part => nonempty (strip part)) (split_on comma raw))
    /\ Forall2
         (fun fragment n =>
            exists front last,
              split_ws (replace [nl] (lit " ") (strip fragment)) = front ++ [last]
              /\ n = strip_by (is_char ")") last)
         (filter (fun part => nonempty (strip part)) (split_on comma raw))
         names
    /\ Forall
         (fun n => (forall c, In c n -> is_space c = false)
                   /\ lacks comma n /\ trimmed_by (is_char ")") n)
         names.
Proof.
  intros raw. exists (header_names raw).
  split; [apply parse_ports_from_header_eq|]. split; [|split].
  - rewrite <- stripped_parts_length. unfold header_names.
    apply flat_map_length_one. intros part Hp.
    destruct (in_stripped_parts _ _ Hp) as (x & _ & -> & Hx).
    pose proof (header_tokens_nonempty _ Hx) as Ht.
    destruct (rev (split_ws (replace [nl] (lit " ") (strip x)))) as [|t r] eqn:E;
      [|reflexivity].
    apply (f_equal (@length str)) in E. rewrite length_rev in E.
    destruct (split_ws (replace [nl] (lit " ") (strip x))); [contradiction|discriminate].
  - unfold header_names, stripped_parts.
    apply Forall2_flat_map_one. intros x Hx.
    apply filter_In in Hx. destruct Hx as [_ Hx]. apply nonempty_true in Hx.
    pose proof (header_tokens_nonempty _ Hx) as Ht.
    destruct (rev (split_ws (replace [nl] (lit " ") (strip x)))) as [|t r] eqn:E.
    + apply (f_equal (@length str)) in E. rewrite length_rev in E.
      destruct (split_ws (replace [nl] (lit " ") (strip x)));
        [contradiction|discriminate].
    + eexists. split; [reflexivity|]. exists (rev r), t. split; [|reflexivity].
      apply (f_equal (@rev str)) in E. rewrite rev_involutive in E. exact E.
  - apply Forall_forall. intros n Hn. unfold header_names in Hn.
    apply in_flat_map in Hn. destruct Hn as (part & Hp & Hn).
    destruct (rev (split_ws (replace [nl] (lit " ") part))) as [|t r] eqn:E;
      [contradiction|].
    destruct Hn as [<-|[]].
    assert (In t (split_ws (replace [nl] (lit " ") part))) as Ht.
    { apply in_rev. rewrite E. left. reflexivity. }
    destruct (header_token_shape _ _ (stripped_part_lacks_comma _ _ Hp) Ht) as [Hs Hc].
    split; [|split].
    + intros c Hin. apply Hs. exact (strip_by_incl _ _ _ Hin).
    + apply strip_by_lacks, Hc.
    + apply strip_by_trimmed.
Qed.

(** X7: [parse_parameters] returns one text for each fragment between commas
    that is not blank, in the order of the text: the text of a fragment is
    the fragment with some of its characters deleted, and it has no white
    space at its ends and no comma.  Without a parameter section, and for
    an empty one, it returns the empty list. *)
Theorem parse_parameters_shape :
  parse_parameters None = [] /\ parse_parameters (Some []) = []
  /\ forall raw,
       length (parse_parameters (Some raw))
       = length (filter (fun part => nonempty (strip part)) (split_on comma raw))
       /\ Forall2
            (fun fragment p => subseq p fragment /\ trimmed p /\ lacks comma p)
            (filter (fun part => nonempty (strip part)) (split_on comma raw))
            (parse_parameters (Some raw))
       /\ Forall (fun p => trimmed p /\ lacks comma p) (parse_parameters (Some raw)).
Proof.
  split; [reflexivity|]. split; [reflexivity|].
  intros raw. rewrite parse_parameters_map. split; [|split].
  - rewrite length_map. apply stripped_parts_length.
  - unfold stripped_parts. apply Forall2_map_r. intros x Hx.
    apply filter_In in Hx. destruct Hx as [Hx _].
    split; [|split].
    + apply subseq_trans with (replace keyword [] (strip x));
        [apply strip_by_subseq|].
      apply subseq_trans with (strip x);
        [apply replace_empty_subseq|apply strip_by_subseq].
    + apply strip_by_trimmed.
    + apply strip_by_lacks. intros Hin. apply replace_empty_incl in Hin.
      apply strip_by_incl in Hin. exact (split_on_lacks _ _ _ Hx Hin).
  - apply Forall_forall. intros p Hp.
    apply in_map_iff in Hp. destruct Hp as (part & <- & Hpart).
    split; [apply strip_by_trimmed|]. apply strip_by_lacks.
    intros Hin. apply replace_empty_incl in Hin.
    exact (stripped_part_lacks_comma _ _ Hpart Hin).
Qed.

(** ** Line comments, line by line *)

Lemma split_on_nl_eol : forall t,
  split_on nl t =
  firstn (eol_dist t) t ::
  match skipn (eol_dist t) t with
  | [] => []
  | _ :: after => split_on nl after
  end.
Proof.
  induction t as [|c tl IH]; [reflexivity|].
  cbn [split_on eol_dist]. change (Ascii.eqb c nl) with (is_nl c).
  destruct (is_nl c); [reflexivity|].
  rewrite IH. reflexivity.
Qed.

Lemma eol_dist_skipn : forall t, eol_dist (skipn (eol_dist t) t) = 0.
Proof.
  induction t as [|c tl IH]; [reflexivity|].
  cbn [eol_dist]. destruct (is_nl c) eqn:E; [|exact IH].
  cbn [skipn eol_dist]. rewrite E. reflexivity.
Qed.

Lemma join_cons_char : forall sep c a l,
  join sep ((c :: a) :: l) = c :: join sep (a :: l).
Proof. intros sep c a l. destruct l; reflexivity. Qed.

Lemma split_on_first_char : forall sep t h r y h',
  split_on sep t = h :: r -> h = y :: h' -> exists tl, t = y :: tl.
Proof.
  intros sep t h r y h' Hs Hh. subst h. destruct t as [|x tl]; simpl in Hs.
  - discriminate.
  - destruct (Ascii.eqb x sep); [discriminate|].
    destruct (split_on sep tl); injection Hs as -> _; eauto.
Qed.

Lemma line_pass_lines_aux : forall n t, length t <= n ->
  cut line_len t 0 = join [nl] (map before_comment (split_on nl t)).
Proof.
  induction n as [|n IH]; intros t Hn.
  - destruct t; [reflexivity|simpl in Hn; lia].
  - destruct t as [|c tl]; [reflexivity|]. simpl in Hn.
    rewrite cut_step. destruct (line_len (c :: tl)) as [[|m]|] eqn:E.
    + exfalso. exact (line_len_pos _ E).
    + apply line_len_some in E. destruct E as (tl2 & Ht & Hm).
      injection Ht as -> ->. injection Hm as ->. simpl in Hn.
      cbn [skipn].
      rewrite IH by (rewrite length_skipn; lia).
      rewrite (split_on_nl_eol (skipn (eol_dist tl2) tl2)), eol_dist_skipn.
      rewrite (split_on_nl_eol ("/"%char :: "/"%char :: tl2)).
      cbn [eol_dist firstn skipn map].
      change (is_nl "/") with false. cbv iota.
      cbn [firstn skipn map before_comment].
      change (starts_with (lit "//") ("/"%char :: "/"%char :: firstn (eol_dist tl2) tl2))
        with true. cbv iota. reflexivity.
    + rewrite IH by lia.
      cbn [split_on]. change (Ascii.eqb c nl) with (is_nl c).
      destruct (is_nl c) eqn:Ec.
      * apply Ascii.eqb_eq in Ec. subst c.
        destruct (split_on_cons nl tl) as (h & r & ->). reflexivity.
      * destruct (split_on_cons nl tl) as (h & r & Hs). rewrite Hs.
        cbn [map]. rewrite <- join_cons_char. f_equal. f_equal.
        cbn [before_comment].
        destruct (starts_with (lit "//") (c :: h)) eqn:Es; [|reflexivity].
        exfalso. cbn in Es. apply andb_prop in Es. destruct Es as [Hc Es].
        destruct h as [|y h']; [discriminate|].
        destruct (split_on_first_char _ _ _ _ _ _ Hs eq_refl) as [tl' ->].
        unfold line_len in E. cbn in E. cbn in Es. rewrite Hc in E.
        apply andb_prop in Es. destruct Es as [Hy _]. rewrite Hy in E.
        discriminate.
Qed.

(** X8: the removal of line comments works line by line: the first pass of
    [strip_comments] returns the lines of the text, each cut before its first
    pair of slashes, joined by newlines again. *)
Theorem line_comments_line_by_line : forall t,
  re_sub line_comment [] t = join [nl] (map before_comment (split_on nl t)).
Proof.
  intros t. unfold re_sub. rewrite (sub_scan_cut line_len _ _ match_at_line).
  exact (line_pass_lines_aux (length t) t (le_n _)).
Qed.

(** X9: the parse depends on the text only through its stripped form:
    parsing a text whose comments were stripped beforehand finds the same
    module boundaries and returns the same modules. *)
Theorem parse_modules_of_stripped : forall t,
  module_matches (strip_comments t) = module_matches t
  /\ parse_modules (strip_comments t) = parse_modules t.
Proof.
  intros t.
  assert (strip_comments (strip_comments t) = strip_comments t) as E.
  { destruct (strip_comments_clean t) as [Hl Hb].
    rewrite (strip_comments_cut (strip_comments t)).
    rewrite (cut_fixed _ _ Hl), (cut_fixed _ _ Hb). reflexivity. }
  unfold module_matches, parse_modules. cbv zeta. rewrite E. split; reflexivity.
Qed.

(** ** The command, from text to file *)

(** X10: what [main] does with the files, whatever the file operations do.
    On a text without a module boundary it raises
    [ValueError("No modules found in input.")] and calls neither operation.
    On any other text it calls [mkdir]; if that raises, so does [main], and
    nothing is written; if it returns, [main] calls [write_text] once, on
    the document of the parsed modules, the same from every store, and
    ends as that call ends.  Parsing and rendering raise nothing. *)
Theorem main_outcomes :
  forall (world : Type) (mkdir : world -> res unit * world)
         (write_text : str -> world -> res unit * world) content w h,
  main mkdir write_text content w h =
  if nonempty (module_matches content)
  then match mkdir w with
       | (inl e, w1) => (inl e, w1)
       | (inr _, w1) =>
           write_text (document_text (map module_of (module_matches content))) w1
       end
  else (inl (ValueError (lit "No modules found in input.")), w).
Proof.
  intros world mkdir write_text content w h.
  unfold main. rewrite parse_modules_eq. unfold ret.
  destruct (module_matches content) as [|m ms] eqn:E; [reflexivity|].
  cbn [map nonempty negb].
  destruct (build_documentation_returns (module_of m :: map module_of ms) h) as [junk ->].
  reflexivity.
Qed.

(** ** Where the matches lie *)

Lemma match_at_length : forall r pv t len cps,
  match_at r pv t = Some (len, cps) -> len <= length t.
Proof.
  intros r pv t len cps H. unfold match_at in H.
  destruct (rmatch _ _ _); [|discriminate]. injection H as <- _. lia.
Qed.

Lemma in_order_weaken : forall l lo lo' hi,
  lo' <= lo -> in_order lo l hi -> in_order lo' l hi.
Proof.
  intros [|m l] lo lo' hi Hle H; simpl in *; [lia|].
  destruct H as (H1 & H2 & H3). repeat split; [lia|exact H2|exact H3].
Qed.

Lemma scan_in_order : forall r, 1 <= min_len r ->
  forall t pv pos skip, skip <= length t ->
    in_order (pos + skip)
      (map (fun x => Mobj (fst (fst x)) (snd (fst x)) (snd x))
           (scan (match_at r) pv pos t skip))
      (pos + length t).
Proof.
  intros r Hr. induction t as [|c tl IH]; intros pv pos skip Hs.
  - simpl in Hs. assert (skip = 0) as -> by lia. simpl.
    destruct (match_at r pv []) as [[len g]|] eqn:E; [|simpl; lia].
    pose proof (match_at_length _ _ _ _ _ E) as L.
    pose proof (match_at_min_len _ _ _ _ _ E) as M. simpl in L. lia.
  - destruct skip as [|n]; cbn [scan].
    + destruct (match_at r pv (c :: tl)) as [[len g]|] eqn:E.
      * pose proof (match_at_length _ _ _ _ _ E) as L.
        pose proof (match_at_min_len _ _ _ _ _ E) as M. simpl in L.
        cbn [map in_order m_start m_end fst snd].
        split; [lia|]. split; [lia|].
        replace (pos + len) with (S pos + pred len) by lia.
        replace (pos + length (c :: tl)) with (S pos + length tl) by (simpl; lia).
        apply IH. lia.
      * apply in_order_weaken with (lo := S pos + 0); [lia|].
        replace (pos + length (c :: tl)) with (S pos + length tl) by (simpl; lia).
        apply IH. lia.
    + replace (pos + S n) with (S pos + n) by lia.
      replace (pos + length (c :: tl)) with (S pos + length tl) by (simpl; lia).
      apply IH. simpl in Hs. lia.
Qed.

Lemma scan_entries (G : Type) (f : option ascii -> str -> option (nat * G)) :
  forall t pv pos skip a b g,
    In (a, b, g) (scan f pv pos t skip) ->
    exists pv', pos <= a /\ f pv' (skipn (a - pos) t) = Some (b - a, g).
Proof.
  induction t as [|c tl IH]; intros pv pos skip a b g H.
  - destruct skip; simpl in H; [|contradiction].
    destruct (f pv []) as [[len x]|] eqn:E; [|contradiction].
    destruct H as [H|[]]. injection H as <- <- <-.
    exists pv. split; [lia|]. rewrite Nat.sub_diag. simpl.
    replace (pos + len - pos) with len by lia. exact E.
  - assert (forall n, In (a, b, g) (scan f (Some c) (S pos) tl n) ->
                      exists pv', pos <= a
                                  /\ f pv' (skipn (a - pos) (c :: tl)) = Some (b - a, g))
      as Hrec.
    { intros n Hn. destruct (IH _ _ _ _ _ _ Hn) as (pv' & Hle & Hf).
      exists pv'. split; [lia|].
      replace (a - pos) with (S (a - S pos)) by lia. exact Hf. }
    destruct skip; cbn [scan] in H; [|exact (Hrec _ H)].
    destruct (f pv (c :: tl)) as [[len x]|] eqn:E; [|exact (Hrec _ H)].
    destruct H as [H|H]; [|exact (Hrec _ H)].
    injection H as <- <- <-.
    exists pv. split; [lia|]. rewrite Nat.sub_diag. simpl.
    replace (pos + len - pos) with len by lia. exact E.
Qed.

Lemma respects_top : forall r, respects (fun _ _ => True) r.
Proof. induction r; cbn; auto. Qed.

(** Every match of [finditer] is a stretch of the text that the pattern
    spans; group 0 is that stretch. *)
Lemma finditer_slices : forall r t m,
  In m (finditer r t) ->
  exists w, group m 0 = Some w
            /\ w = firstn (m_end m - m_start m) (skipn (m_start m) t)
            /\ spans r w.
Proof.
  intros r t m Hm. unfold finditer in Hm.
  apply in_map_iff in Hm. destruct Hm as ([[a b] g] & <- & Hx).
  cbn [fst snd m_start m_end]. unfold group. cbn [m_groups].
  destruct (scan_entries _ _ _ _ _ _ _ _ _ Hx) as (pv' & _ & Hf).
  rewrite Nat.sub_0_r in Hf.
  destruct (match_at_spans (fun _ _ => True) _ _ _ _ _ (respects_top r)
              (fun _ => I) Hf) as (_ & w & t' & Et & El & Sw & Hg).
  exists w. split; [exact Hg|]. split; [|exact Sw].
  rewrite Et, El, firstn_app, Nat.sub_diag, firstn_all. simpl.
  rewrite app_nil_r. reflexivity.
Qed.

Lemma tail_nil (A : Type) : forall e : list A, e = [] ++ e.
Proof. reflexivity. Qed.

Lemma tail_app (A : Type) : forall l r j e : list A,
  r = j ++ e -> l ++ r = (l ++ j) ++ e.
Proof. intros l r j e ->. apply app_assoc. Qed.

Lemma tail_cons (A : Type) : forall (c : A) r j e,
  r = j ++ e -> c :: r = (c :: j) ++ e.
Proof. intros c r j e ->. reflexivity. Qed.

Lemma spans_module_pattern : forall w,
  spans module_pattern w ->
  exists inner, w = lit "module" ++ inner ++ lit "endmodule".
Proof.
  intros w H. unfold module_pattern in H. cbn [spans] in H.
  repeat match goal with
         | H : exists _, _ |- _ => destruct H
         | H : _ /\ _ |- _ => destruct H
         end.
  repeat match goal with
         | H : spans (Word _) _ |- _ => apply spans_Lits in H
         end.
  subst. cbn [app].
  generalize (lit "endmodule"). intros e. eexists. f_equal.
  repeat first [apply tail_nil | apply tail_app | apply tail_cons].
Qed.


(** X11: the module boundaries of a text lie one after the other in the
    stripped text, without overlap and inside it; each is a stretch of the
    stripped text that begins with [module] and ends with [endmodule], and
    [parse_modules] returns the modules of the boundaries in that order. *)
Theorem module_boundaries_in_order : forall text,
  in_order 0 (module_matches text) (length (strip_comments text))
  /\ (forall m, In m (module_matches text) ->
        exists inner,
          firstn (m_end m - m_start m) (skipn (m_start m) (strip_comments text))
          = lit "module" ++ inner ++ lit "endmodule")
  /\ parse_modules text = inr (map module_of (module_matches text)).
Proof.
  intros text. split; [|split].
  - unfold module_matches, finditer.
    apply (scan_in_order module_pattern ltac:(vm_compute; lia)
             (strip_comments text) None 0 0). lia.
  - intros m Hm. destruct (finditer_slices _ _ _ Hm) as (w & _ & <- & Sw).
    exact (spans_module_pattern _ Sw).
  - apply parse_modules_eq.
Qed.

(** ** The rendered table and diagram *)

(** X12: [format_port_table] returns, from every store, the header row, the
    separator row and one row for each port in order, joined by newlines; it
    leaves the objects of the store as they were and only adds its own list
    of rows. *)
Theorem port_table_rows : forall ports h,
  exists junk,
    format_port_table ports h
    = (join [nl]
         ([lit "| Name | Direction | Type | Width |"; lit "| --- | --- | --- | --- |"]
          ++ map port_row ports),
       h ++ junk).
Proof. intros ports h. exact (format_port_table_returns ports h). Qed.

Lemma enumerate_length (A : Type) : forall start (l : list A),
  length (enumerate start l) = length l.
Proof.
  intros start l. unfold enumerate.
  rewrite length_combine, length_seq. apply Nat.min_id.
Qed.

Lemma flat_map_length_const (A B : Type) (h : A -> list B) (n : nat) : forall l,
  (forall x, length (h x) = n) -> length (flat_map h l) = n * length l.
Proof.
  intros l H. induction l as [|x l IH]; simpl; [lia|].
  rewrite length_app, H, IH. lia.
Qed.

Lemma mermaid_module_lines_length : forall module,
  length (mermaid_module_lines module) = 3 + 2 * length (instances module).
Proof.
  intros module. unfold mermaid_module_lines.
  rewrite !length_app.
  rewrite (flat_map_length_const _ _ (instance_node_lines module) 2)
    by reflexivity.
  rewrite enumerate_length. simpl. lia.
Qed.

(** X13: [make_mermaid] returns, from every store, the line [flowchart LR]
    followed by one block of lines for each module in order, joined by
    newlines; the block of a module has three lines and two more for each
    of its instances. *)
Theorem diagram_lines : forall modules h,
  (exists junk,
     make_mermaid modules h
     = (join [nl] ([lit "flowchart LR"] ++ flat_map mermaid_module_lines modules),
        h ++ junk))
  /\ Forall (fun module =>
               length (mermaid_module_lines module)
               = 3 + 2 * length (instances module))
            modules.
Proof.
  intros modules h. split; [exact (make_mermaid_returns modules h)|].
  apply Forall_forall. intros module _. apply mermaid_module_lines_length.
Qed.

Lemma str_of_nat_inj : forall n m, str_of_nat n = str_of_nat m -> n = m.
Proof.
  intros n m H. unfold str_of_nat, lit in H.
  apply (f_equal string_of_list_ascii) in H.
  rewrite !string_of_list_ascii_of_string in H.
  apply (f_equal NilEmpty.uint_of_string) in H.
  rewrite !NilEmpty.usu in H. injection H as H.
  exact (DecimalNat.Unsigned.to_uint_inj _ _ H).
Qed.

Lemma enumerate_fst (A : Type) : forall start (l : list A),
  map fst (enumerate start l) = seq start (length l).
Proof.
  intros start l. revert start. induction l as [|x l IH]; intros start; [reflexivity|].
  unfold enumerate in *. simpl. rewrite IH. reflexivity.
Qed.

Lemma flat_map_combine_map (A B C D : Type) (f : A -> C) (g : C * B -> list D) :
  forall (a : list A) (b : list B),
  flat_map g (combine (map f a) b)
  = flat_map (fun p => g (f (fst p), snd p)) (combine a b).
Proof.
  induction a as [|x a IH]; intros b; [reflexivity|].
  destruct b as [|y b]; [reflexivity|]. simpl. rewrite IH. reflexivity.
Qed.

Lemma instance_ids_seq : forall module,
  instance_ids module
  = map (fun i => name module ++ lit "_inst_" ++ str_of_nat i)
        (seq 1 (length (instances module))).
Proof.
  intros module. unfold instance_ids.
  rewrite <- (map_map fst (fun i => name module ++ lit "_inst_" ++ str_of_nat i)).
  rewrite enumerate_fst. reflexivity.
Qed.

Lemma diagram_block_eq : forall module,
  mermaid_module_lines module = diagram_block module.
Proof.
  intros module. unfold mermaid_module_lines, diagram_block.
  rewrite instance_ids_seq, flat_map_combine_map.
  reflexivity.
Qed.

(** X14: [make_mermaid] returns, from every store, the diagram in which the
    instances of each module stand, in their order, next to the identifiers
    made of the module name, [_inst_] and the number of the instance counted
    from 1; within one module these identifiers are as many as the
    instances, differ from one another and differ from the identifier of
    the module's own node. *)
Theorem instance_ids_distinct :
  (forall modules h, exists junk,
     make_mermaid modules h
     = (join [nl] ([lit "flowchart LR"] ++ flat_map diagram_block modules),
        h ++ junk))
  /\ forall module,
       length (instance_ids module) = length (instances module)
       /\ NoDup (instance_ids module)
       /\ ~ In (name module ++ lit "_self") (instance_ids module).
Proof.
  split.
  - intros modules h. destruct (make_mermaid_returns modules h) as [junk E].
    exists junk. rewrite E. unfold mermaid_text. do 3 f_equal.
    apply flat_map_ext. intros module. apply diagram_block_eq.
  - intros module. split; [|split].
    + unfold instance_ids. rewrite length_map. apply enumerate_length.
    + rewrite instance_ids_seq.
      apply Finite.Injective_map_NoDup; [|apply seq_NoDup].
      intros i j H. apply app_inv_head in H. apply app_inv_head in H.
      exact (str_of_nat_inj _ _ H).
    + intros H. unfold instance_ids in H.
      apply in_map_iff in H. destruct H as (ii & H & _).
      apply app_inv_head in H. discriminate.
Qed.

(** ** Texts without the words of a pattern *)


Lemma occurs_skipn_true : forall p n t,
  starts_with p (skipn n t) = true -> occurs p t = true.
Proof.
  intros p. induction n as [|n IH]; intros t H.
  - destruct t; simpl in *; rewrite H; reflexivity.
  - destruct t as [|c t]; [destruct p; [reflexivity|discriminate]|].
    cbn [occurs]. simpl in H. rewrite (IH _ H). apply orb_true_r.
Qed.

Lemma starts_with_app : forall p v, starts_with p (p ++ v) = true.
Proof.
  induction p as [|a p IH]; intros v; [reflexivity|].
  simpl. unfold is_char. rewrite Ascii.eqb_refl. apply IH.
Qed.




(** ** Modules that cannot be there *)

(** X16: a text whose stripped form does not contain [endmodule] has no
    module boundary: [parse_modules] returns the empty list. *)
Theorem no_endmodule_no_modules : forall text,
  occurs (lit "endmodule") (strip_comments text) = false ->
  module_matches text = [] /\ parse_modules text = inr [].
Proof.
  intros text H.
  assert (module_matches text = []) as E.
  { destruct (module_matches text) as [|m ms] eqn:E; [reflexivity|]. exfalso.
    assert (In m (module_matches text)) as Hm by (rewrite E; left; reflexivity).
    unfold module_matches in Hm.
    destruct (finditer_slices _ _ _ Hm) as (w & _ & Hw & Sw).
    destruct (spans_module_pattern _ Sw) as (inner & Ew).
    assert (exists n, starts_with (lit "endmodule") (skipn n (strip_comments text)) = true)
      as [n Hn].
    { exists (length (lit "module" ++ inner) + m_start m).
      rewrite <- skipn_skipn.
      rewrite <- (firstn_skipn (m_end m - m_start m)
                    (skipn (m_start m) (strip_comments text))).
      rewrite <- Hw, Ew, (app_assoc (lit "module")), <- (app_assoc (lit "module" ++ inner)).
      rewrite skipn_app, skipn_all, Nat.sub_diag. cbn [app skipn].
      apply starts_with_app. }
    rewrite (occurs_skipn_true _ _ _ Hn) in H. discriminate. }
  split; [exact E|]. rewrite parse_modules_eq, E. reflexivity.
Qed.

Lemma no_endmodule_no_modules_witness :
  occurs (lit "endmodule") (strip_comments (lit "module m(a); // endmodule")) = false
  /\ module_matches (lit "module m(a); // endmodule") = []
  /\ parse_modules (lit "module m(a); // endmodule") = inr [].
Proof.
  split; [vm_compute; reflexivity|].
  apply (no_endmodule_no_modules (lit "module m(a); // endmodule")).
  vm_compute. reflexivity.
Defined.

(** ** image_generator: colours and command-line values *)

Lemma split_on_lacks_id : forall sep p, lacks sep p -> split_on sep p = [p].
Proof.
  intros sep. induction p as [|c p IH]; intros H; [reflexivity|].
  simpl. destruct (Ascii.eqb c sep) eqn:E.
  - apply Ascii.eqb_eq in E. subst c. exfalso. apply H. left. reflexivity.
  - rewrite IH; [reflexivity|]. intros Hin. apply H. right. exact Hin.
Qed.

Lemma split_on_app_sep : forall sep p t,
  lacks sep p -> split_on sep (p ++ sep :: t) = p :: split_on sep t.
Proof.
  intros sep. induction p as [|c p IH]; intros t H.
  - simpl. rewrite Ascii.eqb_refl. reflexivity.
  - simpl. destruct (Ascii.eqb c sep) eqn:E.
    + apply Ascii.eqb_eq in E. subst c. exfalso. apply H. left. reflexivity.
    + rewrite IH; [reflexivity|]. intros Hin. apply H. right. exact Hin.
Qed.

(** Splitting what was joined gives the parts back. *)
Lemma split_on_join : forall sep l,
  l <> [] -> Forall (lacks sep) l -> split_on sep (join [sep] l) = l.
Proof.
  intros sep. induction l as [|p l IH]; intros Hne Hl; [contradiction|].
  inversion Hl as [|? ? Hp Hrest]; subst.
  destruct l as [|q l].
  - simpl. apply split_on_lacks_id, Hp.
  - change (join [sep] (p :: q :: l)) with (p ++ sep :: join [sep] (q :: l)).
    rewrite (split_on_app_sep _ _ _ Hp), IH; [reflexivity|discriminate|exact Hrest].
Qed.

Module ImageGeneratorFacts.
Import ZArith.ZArith ImageGenerator.
Local Open Scope Z_scope.

Lemma clamp_in_gamut : forall c, in_gamut (clamp c).
Proof. intros [x y z]. unfold in_gamut, clamp. cbn [r g b]. lia. Qed.

(** X17: [RGB.clamp] always gives a colour with every channel between 0 and
    255; clamping a second time changes nothing; and a colour is left as it
    is exactly when its channels are already in that range. *)
Theorem clamp_gamut : forall c,
  in_gamut (clamp c) /\ clamp (clamp c) = clamp c /\ (clamp c = c <-> in_gamut c).
Proof.
  intros [x y z]. unfold in_gamut, clamp. cbn [r g b].
  split; [lia|]. split.
  - f_equal; lia.
  - split.
    + intros H. injection H as H1 H2 H3. lia.
    + intros H. f_equal; lia.
Qed.

(** X18: [RGB.invert] is its own inverse, and it maps the colours with
    channels between 0 and 255 to such colours, and no others. *)
Theorem invert_involutive : forall c,
  invert (invert c) = c /\ (in_gamut (invert c) <-> in_gamut c).
Proof.
  intros [x y z]. unfold in_gamut, invert. cbn [r g b].
  split; [f_equal; lia|]. split; lia.
Qed.

(** X19: the two colours of the checker pattern: inverting the masked
    colour on the selected channels is the same as masking the inverted
    colour; masking twice is masking once; and when the colour has its
    channels between 0 and 255, so have both the masked colour and its
    inversion on the channels. *)
Theorem checker_colours : forall c channels,
  invert_channels (apply_channel_mask c channels) channels
  = apply_channel_mask (invert c) channels
  /\ apply_channel_mask (apply_channel_mask c channels) channels
     = apply_channel_mask c channels
  /\ (in_gamut c ->
      in_gamut (apply_channel_mask c channels)
      /\ in_gamut (invert_channels (apply_channel_mask c channels) channels)).
Proof.
  intros [x y z] channels.
  unfold in_gamut, invert_channels, apply_channel_mask, invert. cbv zeta. cbn [r g b].
  destruct (contains_char "r" (lower channels)),
           (contains_char "g" (lower channels)),
           (contains_char "b" (lower channels));
    (split; [reflexivity|]); (split; [reflexivity|]); lia.
Qed.

Lemma checker_colours_witness :
  in_gamut (mkRGB 255 0 10)
  /\ in_gamut (apply_channel_mask (mkRGB 255 0 10) (lit "RB"))
  /\ in_gamut (invert_channels (apply_channel_mask (mkRGB 255 0 10) (lit "RB")) (lit "RB")).
Proof.
  assert (in_gamut (mkRGB 255 0 10)) as H by (unfold in_gamut; simpl; lia).
  split; [exact H|].
  exact (proj2 (proj2 (checker_colours (mkRGB 255 0 10) (lit "RB"))) H).
Defined.

Lemma each_length (A B : Type) (f : A -> result B) : forall l ys,
  each f l = inr ys -> length ys = length l.
Proof.
  induction l as [|x l IH]; intros ys H; simpl in H.
  - injection H as <-. reflexivity.
  - destruct (f x) as [e|y]; [discriminate|]. cbn [rbind] in H.
    destruct (each f l) as [e|ys']; [discriminate|]. cbn [rbind] in H.
    injection H as <-. simpl. rewrite (IH ys' eq_refl). reflexivity.
Qed.

(** X20: whatever [int] accepts, a colour that [parse_rgb] returns has every
    channel between 0 and 255, and it returns one only for a value with
    exactly three fragments between commas. *)
Theorem parse_rgb_gamut : forall py_int value c,
  parse_rgb py_int value = inr c ->
  in_gamut c /\ length (split_on comma value) = 3%nat.
Proof.
  intros py_int value c H. unfold parse_rgb in H.
  destruct (each (int py_int) (split_on comma value)) as [e|parts] eqn:E;
    [discriminate|].
  cbn [rbind] in H. apply each_length in E.
  destruct parts as [|x [|y [|z [|u parts]]]]; try discriminate.
  injection H as <-. split; [apply clamp_in_gamut|]. symmetry. exact E.
Qed.

Lemma parse_rgb_gamut_witness :
  parse_rgb (fun _ => Some 300) (lit "a,b,c") = inr (mkRGB 255 255 255)
  /\ in_gamut (mkRGB 255 255 255)
  /\ length (split_on comma (lit "a,b,c")) = 3%nat.
Proof.
  split; [vm_compute; reflexivity|].
  apply (parse_rgb_gamut (fun _ => Some 300) (lit "a,b,c")).
  vm_compute. reflexivity.
Defined.

Lemma for_in_ok (A : Type) (body : A -> result unit) : forall l,
  for_in l body = inr tt <-> Forall (fun x => body x = inr tt) l.
Proof.
  induction l as [|x l IH]; simpl.
  - split; [constructor|reflexivity].
  - destruct (body x) as [e|[]] eqn:E; cbn [rbind].
    + split; [discriminate|]. intros H. inversion H; subst. congruence.
    + rewrite IH. split.
      * intros H. constructor; [exact E|exact H].
      * intros H. inversion H; assumption.
Qed.

Lemma str_in_true : forall x names, str_in x names = true -> In x names.
Proof.
  intros x names H. unfold str_in in H. apply existsb_exists in H.
  destruct H as (y & Hy & E). apply str_eqb_eq in E. subst y. exact Hy.
Qed.

Lemma parse_formats_ok : forall value formats,
  parse_formats value = inr formats ->
  formats = map (fun part => lower (strip part))
                (filter (fun part => nonempty (strip part)) (split_on comma value))
  /\ Forall (fun f => In f allowed) formats.
Proof.
  intros value formats H. unfold parse_formats in H. cbv zeta in H.
  destruct (for_in _ _) as [e|[]] eqn:E; [discriminate|].
  cbn [rbind] in H. injection H as <-. split; [reflexivity|].
  apply for_in_ok in E. rewrite Forall_forall in E |- *.
  intros f Hf. specialize (E f Hf).
  destruct (str_in f allowed) eqn:Es; [|discriminate].
  exact (str_in_true _ _ Es).
Qed.

Lemma allowed_fixed : forall f, In f allowed ->
  lacks comma f /\ nonempty (strip f) = true /\ lower (strip f) = f.
Proof.
  intros f H. unfold allowed in H.
  destruct H as [<-|[<-|[<-|[<-|[]]]]];
    (split; [apply forallb_not_lacks|split]; vm_compute; reflexivity).
Qed.

(** X21: [parse_formats] returns only the formats [png], [bmp], [ppm_p3] and
    [ppm_p6]; and joining what it returns with commas and parsing again
    gives the same list back. *)
Theorem parse_formats_allowed : forall value formats,
  parse_formats value = inr formats ->
  Forall (fun f => In f allowed) formats
  /\ parse_formats (join [comma] formats) = inr formats.
Proof.
  intros value formats H. destruct (parse_formats_ok _ _ H) as [_ Ha].
  split; [exact Ha|].
  assert (map (fun part => lower (strip part))
              (filter (fun part => nonempty (strip part))
                      (split_on comma (join [comma] formats))) = formats) as E.
  { destruct formats as [|f fs]; [reflexivity|].
    rewrite split_on_join; [|discriminate|].
    - clear H. induction (f :: fs) as [|x l IH]; [reflexivity|].
      inversion Ha as [|? ? Hx Hl]; subst.
      destruct (allowed_fixed _ Hx) as (_ & Hn & Hf).
      cbn [filter]. rewrite Hn. cbn [map]. rewrite Hf, (IH Hl). reflexivity.
    - rewrite Forall_forall in Ha |- *. intros x Hx.
      exact (proj1 (allowed_fixed _ (Ha x Hx))). }
  unfold parse_formats. cbv zeta. rewrite E.
  assert (for_in formats
            (fun fmt =>
               if negb (str_in fmt allowed)
               then inl (ArgumentTypeError
                           (lit "Formats must be png, bmp, ppm_p3, or ppm_p6."))
               else inr tt) = inr tt) as ->; [|reflexivity].
  apply for_in_ok. rewrite Forall_forall in Ha |- *. intros f Hf.
  assert (str_in f allowed = true) as ->; [|reflexivity].
  unfold str_in. apply existsb_exists. exists f.
  split; [exact (Ha f Hf)|]. apply str_eqb_eq. reflexivity.
Qed.

Lemma parse_formats_allowed_witness :
  parse_formats (lit " PNG, ,ppm_P3") = inr [lit "png"; lit "ppm_p3"]
  /\ Forall (fun f => In f allowed) [lit "png"; lit "ppm_p3"]
  /\ parse_formats (join [comma] [lit "png"; lit "ppm_p3"])
     = inr [lit "png"; lit "ppm_p3"].
Proof.
  split; [vm_compute; reflexivity|].
  apply (parse_formats_allowed (lit " PNG, ,ppm_P3")).
  vm_compute. reflexivity.
Defined.

End ImageGeneratorFacts.
